(** * Consistent hashing with node rebalancing

    A shallow embedding of the two ring implementations of the repository,
    [consistent_hashing.py] (SHA-1 positions, [bisect_left] lookup) and
    [simple_hashing.py] (MD5 positions, [bisect_right] lookup, and the
    [StorageService] built on it), together with the library functions
    they call: [hashlib.sha1], [hashlib.md5], [struct.unpack], [int(_, 16)],
    [bisect.bisect_left], [bisect.bisect_right], [bisect.insort] and
    [list.pop].

    Representation choices.
    - A Python [str] is represented by its UTF-8 encoding, a Rocq [string]
      (a sequence of 8-bit characters).  Concatenation of [str] values is
      concatenation of their encodings, so [f"{node}#{i}"] is [+:+].
    - A Python [int] is a [Z]; a [bytes] value is a [list Z] of values in
      [0..255].
    - A [dict] is a [gmap], a [set] is a [gset], a [list] is a [list].
    - A call either returns a value or raises: [result]. *)

From Stdlib Require Import ZArith List Ascii String Lia.
From stdpp Require Import base gmap sets list strings sorting pretty.

Local Set Warnings "-clear-no-such-hyp".
Local Open Scope Z_scope.

(** * Byte strings and 32-bit words *)

Definition is_byte (b : Z) : Prop := 0 <= b < 256.

Module Bytes.

(** [s.encode('utf-8')], on the representation of [s] by its encoding. *)
Definition encode (s : string) : list Z :=
  map (fun c => Z.of_N (N_of_ascii c)) (list_ascii_of_string s).

(** Big-endian and little-endian readings of a byte sequence. *)
Definition be_decode (bs : list Z) : Z :=
  fold_left (fun acc b => acc * 256 + b) bs 0.

Definition le_decode (bs : list Z) : Z :=
  fold_right (fun b acc => b + 256 * acc) 0 bs.

(** The [n] low bytes of [w], most significant first. *)
Fixpoint be_encode (n : nat) (w : Z) : list Z :=
  match n with
  | O => []
  | S k => (Z.shiftr w (8 * Z.of_nat k)) mod 256 :: be_encode k w
  end.

(** The [n] low bytes of [w], least significant first. *)
Fixpoint le_encode (n : nat) (w : Z) : list Z :=
  match n with
  | O => []
  | S k => w mod 256 :: le_encode k (Z.shiftr w 8)
  end.

(** Cuts a list into consecutive chunks of [n] elements; [fuel] bounds
    the number of chunks. *)
Fixpoint chunks {A} (fuel n : nat) (l : list A) : list (list A) :=
  match fuel, l with
  | _, [] => []
  | O, _ => []
  | S f, _ => firstn n l :: chunks f n (skipn n l)
  end.

Definition blocks {A} (n : nat) (l : list A) : list (list A) :=
  chunks (length l) n l.

Definition wrap32 (x : Z) : Z := x mod 2 ^ 32.
Definition add32 (x y : Z) : Z := wrap32 (x + y).
Definition not32 (x : Z) : Z := Z.lxor x 0xFFFFFFFF.
Definition rotl32 (x n : Z) : Z :=
  Z.lor (wrap32 (Z.shiftl x n)) (Z.shiftr x (32 - n)).

(** Padding shared by MD5 and SHA-1: a [0x80] byte, then zero bytes up
    to 56 modulo 64; the 64-bit bit length is appended by the caller in
    its own byte order. *)
Definition pad_zeros (len : nat) : list Z :=
  repeat 0 (Z.to_nat ((55 - Z.of_nat len) mod 64)).

Definition bit_length (msg : list Z) : Z :=
  (8 * Z.of_nat (length msg)) mod 2 ^ 64.

End Bytes.

(** * hashlib.sha1 (FIPS 180-4) *)

Module SHA1.
Import Bytes.

Definition pad (msg : list Z) : list Z :=
  msg ++ 0x80 :: pad_zeros (length msg) ++ be_encode 8 (bit_length msg).

Definition state : Type := Z * Z * Z * Z * Z.

Definition init : state :=
  (0x67452301, 0xEFCDAB89, 0x98BADCFE, 0x10325476, 0xC3D2E1F0).

(** Message schedule: the 16 big-endian words of the block, extended to
    80 words. *)
Definition extend (w : list Z) (t : nat) : list Z :=
  let x i := nth (t - i) w 0 in
  w ++ [rotl32 (Z.lxor (Z.lxor (Z.lxor (x 3%nat) (x 8%nat)) (x 14%nat)) (x 16%nat)) 1].

Definition schedule (block : list Z) : list Z :=
  fold_left extend (seq 16 64) (map be_decode (blocks 4 block)).

Definition f (t : nat) (b c d : Z) : Z :=
  if (t <? 20)%nat then Z.lor (Z.land b c) (Z.land (not32 b) d)
  else if (t <? 40)%nat then Z.lxor (Z.lxor b c) d
  else if (t <? 60)%nat then
    Z.lor (Z.lor (Z.land b c) (Z.land b d)) (Z.land c d)
  else Z.lxor (Z.lxor b c) d.

Definition k (t : nat) : Z :=
  if (t <? 20)%nat then 0x5A827999
  else if (t <? 40)%nat then 0x6ED9EBA1
  else if (t <? 60)%nat then 0x8F1BBCDC
  else 0xCA62C1D6.

Definition round (w : list Z) (s : state) (t : nat) : state :=
  let '(a, b, c, d, e) := s in
  let temp :=
    add32 (add32 (add32 (add32 (rotl32 a 5) (f t b c d)) e) (k t)) (nth t w 0) in
  (temp, a, rotl32 b 30, c, d).

Definition compress (h : state) (block : list Z) : state :=
  let '(h0, h1, h2, h3, h4) := h in
  let '(a, b, c, d, e) := fold_left (round (schedule block)) (seq 0 80) h in
  (add32 h0 a, add32 h1 b, add32 h2 c, add32 h3 d, add32 h4 e).

(** [hashlib.sha1(msg).digest()]: 20 bytes. *)
Definition digest (msg : list Z) : list Z :=
  let '(h0, h1, h2, h3, h4) := fold_left compress (blocks 64 (pad msg)) init in
  be_encode 4 h0 ++ be_encode 4 h1 ++ be_encode 4 h2 ++ be_encode 4 h3
    ++ be_encode 4 h4.

End SHA1.

(** * hashlib.md5 (RFC 1321) *)

Module MD5.
Import Bytes.

Definition pad (msg : list Z) : list Z :=
  msg ++ 0x80 :: pad_zeros (length msg) ++ le_encode 8 (bit_length msg).

Definition state : Type := Z * Z * Z * Z.

Definition init : state := (0x67452301, 0xefcdab89, 0x98badcfe, 0x10325476).

Definition S : list Z :=
  [7; 12; 17; 22; 7; 12; 17; 22; 7; 12; 17; 22; 7; 12; 17; 22;
   5; 9; 14; 20; 5; 9; 14; 20; 5; 9; 14; 20; 5; 9; 14; 20;
   4; 11; 16; 23; 4; 11; 16; 23; 4; 11; 16; 23; 4; 11; 16; 23;
   6; 10; 15; 21; 6; 10; 15; 21; 6; 10; 15; 21; 6; 10; 15; 21].

Definition K : list Z :=
  [0xd76aa478; 0xe8c7b756; 0x242070db; 0xc1bdceee;
   0xf57c0faf; 0x4787c62a; 0xa8304613; 0xfd469501;
   0x698098d8; 0x8b44f7af; 0xffff5bb1; 0x895cd7be;
   0x6b901122; 0xfd987193; 0xa679438e; 0x49b40821;
   0xf61e2562; 0xc040b340; 0x265e5a51; 0xe9b6c7aa;
   0xd62f105d; 0x02441453; 0xd8a1e681; 0xe7d3fbc8;
   0x21e1cde6; 0xc33707d6; 0xf4d50d87; 0x455a14ed;
   0xa9e3e905; 0xfcefa3f8; 0x676f02d9; 0x8d2a4c8a;
   0xfffa3942; 0x8771f681; 0x6d9d6122; 0xfde5380c;
   0xa4beea44; 0x4bdecfa9; 0xf6bb4b60; 0xbebfbc70;
   0x289b7ec6; 0xeaa127fa; 0xd4ef3085; 0x04881d05;
   0xd9d4d039; 0xe6db99e5; 0x1fa27cf8; 0xc4ac5665;
   0xf4292244; 0x432aff97; 0xab9423a7; 0xfc93a039;
   0x655b59c3; 0x8f0ccc92; 0xffeff47d; 0x85845dd1;
   0x6fa87e4f; 0xfe2ce6e0; 0xa3014314; 0x4e0811a1;
   0xf7537e82; 0xbd3af235; 0x2ad7d2bb; 0xeb86d391].

Definition mix (i : nat) (b c d : Z) : Z * nat :=
  if (i <? 16)%nat then
    (Z.lor (Z.land b c) (Z.land (not32 b) d), i)
  else if (i <? 32)%nat then
    (Z.lor (Z.land d b) (Z.land (not32 d) c), ((5 * i + 1) mod 16)%nat)
  else if (i <? 48)%nat then
    (Z.lxor (Z.lxor b c) d, ((3 * i + 5) mod 16)%nat)
  else
    (Z.lxor c (Z.lor b (not32 d)), ((7 * i) mod 16)%nat).

Definition round (m : list Z) (s : state) (i : nat) : state :=
  let '(a, b, c, d) := s in
  let '(fv, g) := mix i b c d in
  let fv := add32 (add32 (add32 fv a) (nth i K 0)) (nth g m 0) in
  (d, add32 b (rotl32 fv (nth i S 0)), b, c).

Definition compress (h : state) (block : list Z) : state :=
  let '(a0, b0, c0, d0) := h in
  let m := map le_decode (blocks 4 block) in
  let '(a, b, c, d) := fold_left (round m) (seq 0 64) h in
  (add32 a0 a, add32 b0 b, add32 c0 c, add32 d0 d).

(** [hashlib.md5(msg).digest()]: 16 bytes. *)
Definition digest (msg : list Z) : list Z :=
  let '(a, b, c, d) := fold_left compress (blocks 64 (pad msg)) init in
  le_encode 4 a ++ le_encode 4 b ++ le_encode 4 c ++ le_encode 4 d.

End MD5.

(** * Python values and library functions *)

Inductive exn : Set := KeyError | IndexError | StructError | ValueError.

Inductive result (A : Type) : Type :=
| Ok (a : A)
| Raise (e : exn).
Arguments Ok {A} a.
Arguments Raise {A} e.

Global Instance result_ret : MRet result := fun A a => Ok a.

Global Instance result_bind : MBind result := fun A B k r =>
  match r with
  | Ok a => k a
  | Raise e => Raise e
  end.

Module Py.
Import Bytes.

(** [struct.unpack('>Q', bs)[0]]: exactly eight bytes, read big-endian. *)
Definition unpack_Q_be (bs : list Z) : result Z :=
  if (length bs =? 8)%nat then Ok (be_decode bs) else Raise StructError.

Definition hex_digits : list ascii := list_ascii_of_string "0123456789abcdef".

Definition hex_char (n : Z) : ascii := nth (Z.to_nat n) hex_digits "0"%char.

(** [digest.hex()]: two lower-case digits per byte. *)
Fixpoint hex (bs : list Z) : string :=
  match bs with
  | [] => EmptyString
  | b :: bs' => String (hex_char (b / 16)) (String (hex_char (b mod 16)) (hex bs'))
  end.

Definition digit_value (c : ascii) : option Z :=
  let n := Z.of_N (N_of_ascii c) in
  if (48 <=? n) && (n <=? 57) then Some (n - 48)
  else if (97 <=? n) && (n <=? 102) then Some (n - 87)
  else if (65 <=? n) && (n <=? 70) then Some (n - 55)
  else None.

Fixpoint int16_go (acc : Z) (s : string) : result Z :=
  match s with
  | EmptyString => Ok acc
  | String c s' =>
      match digit_value c with
      | Some d => int16_go (acc * 16 + d) s'
      | None => Raise ValueError
      end
  end.

(** [int(s, 16)] on a string of hexadecimal digits (signs, prefixes,
    underscores and surrounding blanks, which [int] also accepts, do not
    occur in a [hexdigest]). *)
Definition int16 (s : string) : result Z :=
  match s with
  | EmptyString => Raise ValueError
  | _ => int16_go 0 s
  end.

(** [bisect.bisect_left(a, x)]: the binary search of [Lib/bisect.py].
    The interval [lo, hi) shrinks at every turn, so [length a] turns
    are enough. *)
Fixpoint bisect_left_loop (fuel : nat) (a : list Z) (x : Z) (lo hi : nat) : nat :=
  match fuel with
  | O => lo
  | S fuel' =>
      if (lo <? hi)%nat then
        let mid := ((lo + hi) / 2)%nat in
        if nth mid a 0 <? x then bisect_left_loop fuel' a x (mid + 1) hi
        else bisect_left_loop fuel' a x lo mid
      else lo
  end.

Definition bisect_left (a : list Z) (x : Z) : nat :=
  bisect_left_loop (length a) a x 0 (length a).

(** [bisect.bisect_right(a, x)]. *)
Fixpoint bisect_right_loop (fuel : nat) (a : list Z) (x : Z) (lo hi : nat) : nat :=
  match fuel with
  | O => lo
  | S fuel' =>
      if (lo <? hi)%nat then
        let mid := ((lo + hi) / 2)%nat in
        if x <? nth mid a 0 then bisect_right_loop fuel' a x lo mid
        else bisect_right_loop fuel' a x (mid + 1) hi
      else lo
  end.

Definition bisect_right (a : list Z) (x : Z) : nat :=
  bisect_right_loop (length a) a x 0 (length a).

(** [a.insert(i, x)] for [0 <= i]. *)
Definition list_insert_at (a : list Z) (i : nat) (x : Z) : list Z :=
  take i a ++ x :: drop i a.

(** [bisect.insort(a, x)], which is [insort_right]. *)
Definition insort (a : list Z) (x : Z) : list Z :=
  list_insert_at a (bisect_right a x) x.

(** [a.pop(i)] for [0 <= i < len(a)], keeping the list only. *)
Definition pop (a : list Z) (i : nat) : list Z := delete i a.

End Py.

(** * The hash functions of the two files *)

Module HashFunction.

(** consistent_hashing.py, [HashFunction.hash]. *)
Definition hash (key : string) : result Z :=
  let hash_bytes := SHA1.digest (Bytes.encode key) in
  Py.unpack_Q_be (take 8 hash_bytes).

(** The value [hash] returns (see [hash_returns]). *)
Definition position (key : string) : Z :=
  Bytes.be_decode (take 8 (SHA1.digest (Bytes.encode key))).

End HashFunction.

Module SimpleHash.

(** simple_hashing.py, [ConsistentHashRing._hash]. *)
Definition _hash (key : string) : result Z :=
  Py.int16 (Py.hex (MD5.digest (Bytes.encode key))).

(** The value [_hash] returns (see [_hash_returns]). *)
Definition position (key : string) : Z :=
  Bytes.be_decode (MD5.digest (Bytes.encode key)).

End SimpleHash.

(** * Ring state and the loops the two files share

    Both [ConsistentHashRing] classes hold the same three containers and
    have the same loop bodies in [add_node] and [remove_node] (up to the
    names of the local variables). *)

Module Ring.

Record state : Type := State {
  ring : gmap Z string;      (* hash position -> physical node name *)
  sorted_keys : list Z;      (* positions, kept sorted by bisect *)
  nodes : gset string        (* physical nodes *)
}.

(** [__init__]. *)
Definition empty : state := State ∅ [] ∅.

(** [f"{node}#{i}"]. *)
Definition vnode_key (node : string) (i : nat) : string :=
  node +:+ "#" +:+ pretty i.

(** The end of the loop body of [remove_node]:
    [idx = bisect_left(sorted_keys, hash_val)], then
    [sorted_keys.pop(idx)] when [idx < len(sorted_keys)] and
    [sorted_keys[idx] == hash_val]. *)
Definition discard (sorted_keys : list Z) (hash_val : Z) : list Z :=
  let idx := Py.bisect_left sorted_keys hash_val in
  if decide ((idx < length sorted_keys)%nat /\ sorted_keys !! idx = Some hash_val)
  then Py.pop sorted_keys idx
  else sorted_keys.

Section Loops.
(** The position [hash_func.hash] / [_hash] returns for a string. *)
Variable hash : string -> Z.

(** Body of the loop of [add_node]. *)
Definition place (node : string) (s : state) (i : nat) : state :=
  let hash_val := hash (vnode_key node i) in
  {| ring := <[hash_val := node]> (ring s);
     sorted_keys := Py.insort (sorted_keys s) hash_val;
     nodes := nodes s |}.

(** Body of the loop of [remove_node]: the position is deleted from
    the dictionary when it is a key of it, and [discard]ed from the
    list. *)
Definition unplace (node : string) (s : state) (i : nat) : state :=
  let hash_val := hash (vnode_key node i) in
  let ring' :=
    if decide (is_Some (ring s !! hash_val)) then delete hash_val (ring s)
    else ring s in
  {| ring := ring';
     sorted_keys := discard (sorted_keys s) hash_val;
     nodes := nodes s |}.

(** The tail of [get_node], after the index has been wrapped:
    [self.ring[self.sorted_keys[idx]]]. *)
Definition owner_at (s : state) (idx : nat) : result (option string) :=
  match sorted_keys s !! idx with
  | None => Raise IndexError
  | Some position =>
      match ring s !! position with
      | None => Raise KeyError
      | Some node => Ok (Some node)
      end
  end.

End Loops.

End Ring.

(** * The data model's invariants, as predicates on a state *)

Section Invariants.
Import Ring.
Variable hash : string -> Z.
Variable R : nat.

(** The positions of the [R] virtual nodes of a node, in loop order. *)
Definition positions (node : string) : list Z :=
  (fun i => hash (vnode_key node i)) <$> seq 0 R.

(** I2 read loosely: the sequence is sorted and holds the keys of the
    mapping, possibly more than once. *)
Definition well_formed (s : state) : Prop :=
  Sorted Z.le (sorted_keys s) /\
  list_to_set (sorted_keys s) =@{gset Z} dom (ring s).

(** I2 as the spec has it: moreover no position occurs twice. *)
Definition exact (s : state) : Prop :=
  well_formed s /\ NoDup (sorted_keys s).

(** What every state reached from the empty ring satisfies. *)
Definition covered (s : state) : Prop :=
  Sorted Z.le (sorted_keys s) /\
  dom (ring s) ⊆@{gset Z} list_to_set (sorted_keys s).

(** Every entry of the mapping is a virtual node of an active node. *)
Definition owned (s : state) : Prop :=
  map_Forall (fun position node => node ∈ nodes s /\ position ∈ positions node)
    (ring s).

(** Every virtual node of an active node is in the mapping, under its
    node. *)
Definition placed (s : state) : Prop :=
  forall node position,
    node ∈ nodes s -> position ∈ positions node ->
    ring s !! position = Some node.

(** No two virtual-node keys of the listed nodes hash to one position
    (and no node is listed twice). *)
Definition collision_free (names : list string) : Prop :=
  NoDup (names ≫= positions).

(** Policy A: the node at the smallest position [>= h], else the node
    at the smallest position. *)
Definition successor_A (s : state) (h : Z) (node : string) : Prop :=
  (exists p, ring s !! p = Some node /\ h <= p /\
     forall q, is_Some (ring s !! q) -> h <= q -> p <= q)
  \/
  ((forall q, is_Some (ring s !! q) -> q < h) /\
   exists p, ring s !! p = Some node /\
     forall q, is_Some (ring s !! q) -> p <= q).

(** Policy B: the node at the smallest position [> h], else the node at
    the smallest position. *)
Definition successor_B (s : state) (h : Z) (node : string) : Prop :=
  (exists p, ring s !! p = Some node /\ h < p /\
     forall q, is_Some (ring s !! q) -> h < q -> p <= q)
  \/
  ((forall q, is_Some (ring s !! q) -> q <= h) /\
   exists p, ring s !! p = Some node /\
     forall q, is_Some (ring s !! q) -> p <= q).

End Invariants.

(** * consistent_hashing.py, class ConsistentHashRing *)

Module consistent_hashing.
Import Ring.

Section Ring.
Variable hash_func : string -> Z.
Variable replicas : nat.

Definition add_node (node : string) (s : state) : state :=
  let s := {| ring := ring s; sorted_keys := sorted_keys s;
              nodes := {[node]} ∪ nodes s |} in
  foldl (place hash_func node) s (seq 0 replicas).

Definition remove_node (node : string) (s : state) : state :=
  if decide (node ∈ nodes s) then
    let s := {| ring := ring s; sorted_keys := sorted_keys s;
                nodes := nodes s ∖ {[node]} |} in
    foldl (unplace hash_func node) s (seq 0 replicas)
  else s.

Definition get_node (s : state) (key : string) : result (option string) :=
  if decide (ring s = ∅) then Ok None
  else
    let hash_val := hash_func key in
    let idx := Py.bisect_left (sorted_keys s) hash_val in
    let idx := if decide (idx = length (sorted_keys s)) then 0%nat else idx in
    owner_at s idx.

(** The states a ring object goes through: created empty, then changed
    by [add_node] and [remove_node] only; [P] restricts the nodes
    that are added. *)
Inductive reachable (P : string -> Prop) : state -> Prop :=
| reachable_init : reachable P empty
| reachable_add node s :
    P node -> reachable P s -> reachable P (add_node node s)
| reachable_remove node s :
    reachable P s -> reachable P (remove_node node s).

(** The same, when [add_node] is only called for a node that is not
    active. *)
Inductive reachable_fresh (P : string -> Prop) : state -> Prop :=
| fresh_init : reachable_fresh P empty
| fresh_add node s :
    P node -> node ∉ nodes s -> reachable_fresh P s ->
    reachable_fresh P (add_node node s)
| fresh_remove node s :
    reachable_fresh P s -> reachable_fresh P (remove_node node s).

End Ring.

End consistent_hashing.

(** * simple_hashing.py, classes ConsistentHashRing and StorageService *)

Module simple_hashing.
Import Ring.

Section Ring.
Variable _hash : string -> Z.
Variable num_virtual_nodes : nat.

Definition add_node (node_name : string) (s : state) : state :=
  if decide (node_name ∈ nodes s) then s
  else
    let s := {| ring := ring s; sorted_keys := sorted_keys s;
                nodes := {[node_name]} ∪ nodes s |} in
    foldl (place _hash node_name) s (seq 0 num_virtual_nodes).

Definition get_node (s : state) (key : string) : result (option string) :=
  if decide (ring s = ∅) then Ok None
  else
    let key_pos := _hash key in
    let idx := Py.bisect_right (sorted_keys s) key_pos in
    let idx := if decide (idx = length (sorted_keys s)) then 0%nat else idx in
    owner_at s idx.

Definition remove_node (node_name : string) (s : state) : state :=
  if decide (node_name ∈ nodes s) then
    let s := {| ring := ring s; sorted_keys := sorted_keys s;
                nodes := nodes s ∖ {[node_name]} |} in
    foldl (unplace _hash node_name) s (seq 0 num_virtual_nodes)
  else s.

Inductive reachable (P : string -> Prop) : state -> Prop :=
| reachable_init : reachable P empty
| reachable_add node s :
    P node -> reachable P s -> reachable P (add_node node s)
| reachable_remove node s :
    reachable P s -> reachable P (remove_node node s).

End Ring.

End simple_hashing.

(** ** StorageService

    [storage] maps a node to that node's dictionary; its keys are node
    names or [None] (the value [get_node] returns on an empty ring, which
    [remove_node_safe] uses as a key like any other).  What the methods
    print is not part of the state and is left out. *)

Module StorageService.
Import simple_hashing.

Section Service.
Variable _hash : string -> Z.
Variable num_virtual_nodes : nat.
(** The values stored: any Python objects. *)
Context {V : Type}.

Record t : Type := Service {
  ring : Ring.state;
  storage : gmap (option string) (gmap string V)
}.

(** [__init__]; the ring it creates has 100 virtual nodes per node. *)
Definition init : t :=
  {| ring := Ring.empty;
     storage := {[ Some "Node_A" := ∅; Some "Node_B" := ∅; Some "Node_C" := ∅ ]} |}.

Definition write (key : string) (value : V) (st : t) : result t :=
  node ← get_node _hash (ring st) key;
  match storage st !! node with
  | None => Raise KeyError
  | Some d =>
      Ok {| ring := ring st; storage := <[node := <[key := value]> d]> (storage st) |}
  end.

(** One turn of the redistribution loop of [remove_node_safe]. *)
Definition move (r : Ring.state) (key : string) (value : V)
    (stg : gmap (option string) (gmap string V))
    : result (gmap (option string) (gmap string V)) :=
  new_node ← get_node _hash r key;
  let stg :=
    if decide (is_Some (stg !! new_node)) then stg
    else <[new_node := ∅]> stg in
  match stg !! new_node with
  | None => Raise KeyError
  | Some d => Ok (<[new_node := <[key := value]> d]> stg)
  end.

(** [remove_node_safe].  [data_to_move] is the very dictionary stored
    under [node_to_remove], which the loop iterates while it writes
    into [storage]; a write into that dictionary can only set a key
    to the value it already has there, so the dictionary iterated is
    the one read before the loop.  The order of the turns (insertion
    order in Python) is the order [map_fold] picks. *)
Definition remove_node_safe (node_to_remove : string) (st : t) : result t :=
  match storage st !! Some node_to_remove with
  | None => Raise KeyError
  | Some data_to_move =>
      let r := remove_node _hash num_virtual_nodes node_to_remove (ring st) in
      stg ← map_fold (fun key value acc => stg ← acc; move r key value stg)
              (Ok (storage st)) data_to_move;
      Ok {| ring := r; storage := delete (Some node_to_remove) stg |}
  end.

End Service.

Arguments t : clear implicits.

End StorageService.

(** What the redistribution loop of [remove_node_safe] has done once the
    pairs of [data] have been moved on the ring [r], [storage0] being the
    storage before the loop: every pair moved is stored under the node
    [get_node] names, and every pair that was stored is still there
    unless a pair moved to that node has the same key. *)
Definition moved {V} (hash : string -> Z) (r : Ring.state)
    (storage0 : gmap (option string) (gmap string V))
    (res : result (gmap (option string) (gmap string V)))
    (data : gmap string V) : Prop :=
  exists stg, res = Ok stg /\
    (forall k v, data !! k = Some v ->
       exists o d, simple_hashing.get_node hash r k = Ok o /\
                   stg !! o = Some d /\ d !! k = Some v) /\
    (forall m d k w, storage0 !! m = Some d -> d !! k = Some w ->
       exists d', stg !! m = Some d' /\
         (d' !! k = Some w \/
          exists v, data !! k = Some v /\
                    simple_hashing.get_node hash r k = Ok m /\
                    d' !! k = Some v)).

(** Node names of every length, to find collisions among. *)
Fixpoint unary_name (i : nat) : string :=
  match i with
  | O => EmptyString
  | S k => String "a" (unary_name k)
  end.

(** * A hasher with a collision

    A deterministic hasher into the 64-bit space under which the
    virtual-node keys ["A#0"] and ["B#0"] get the same position. *)

Definition colliding_hash (key : string) : Z :=
  if String.eqb key "A#0" then 5
  else if String.eqb key "B#0" then 5
  else if String.eqb key "A#1" then 7
  else if String.eqb key "B#1" then 9
  else 0.

(** The end of the prefix of [a] on which the test [p] holds: what the
    two bisect loops search for. *)
Definition split_at (p : Z -> bool) (a : list Z) (r : nat) : Prop :=
  (forall i u, (i < r)%nat -> a !! i = Some u -> p u = true) /\
  (forall i u, (r <= i)%nat -> a !! i = Some u -> p u = false).

Module CH := consistent_hashing.
Module SH := simple_hashing.

(** * Decision procedures for the invariants *)

Global Instance well_formed_dec s : Decision (well_formed s).
Proof. unfold well_formed. apply _. Defined.

Global Instance exact_dec s : Decision (exact s).
Proof. unfold exact. apply _. Defined.

Global Instance owned_dec hash R s : Decision (owned hash R s).
Proof. unfold owned. apply _. Defined.

Global Instance collision_free_dec hash R names : Decision (collision_free hash R names).
Proof. unfold collision_free. apply _. Defined.

Ltac by_evaluation := apply (bool_decide_unpack _); vm_compute; exact I.

(** * The callers of the ring: simulators and what is said of a storage *)

Global Instance exn_eq_dec : EqDecision exn.
Proof. solve_decision. Defined.

Global Instance result_eq_dec {A} `{EqDecision A} : EqDecision (result A).
Proof. solve_decision. Defined.

(** [distribution[node] += 1] on a [defaultdict(int)]. *)
Definition tally (distribution : gmap (option string) Z) (node : option string)
    : gmap (option string) Z :=
  <[node := default 0 (distribution !! node) + 1]> distribution.

Module LoadBalancerSimulator.

(** consistent_hashing.py, [LoadBalancerSimulator.__init__]: [self.keys]. *)
Definition keys (num_keys : nat) : list string :=
  (fun i : nat => "Key" +:+ pretty i) <$> seq 0 num_keys.

(** [get_distribution], [self_keys] being [self.keys]; an exception of
    [get_node] ends the loop and is the outcome. *)
Definition get_distribution (hash_func : string -> Z) (self_keys : list string)
    (ring : Ring.state) : result (gmap (option string) Z) :=
  foldl (fun acc key =>
           distribution ← acc;
           node ← CH.get_node hash_func ring key;
           Ok (tally distribution node))
        (Ok ∅) self_keys.

End LoadBalancerSimulator.

Module simulation.

(** simulation.py, [measure_distribution], on a ring of simple_hashing;
    [randint i] is the number [random.randint(0, 1_000_000)] returns in
    turn [i] of the loop. *)
Definition measure_distribution (_hash : string -> Z) (randint : nat -> Z)
    (ring : Ring.state) (num_keys : nat) : result (gmap (option string) Z) :=
  foldl (fun acc i =>
           node_counts ← acc;
           let key := "user_" +:+ pretty (randint i) in
           assigned_node ← SH.get_node _hash ring key;
           Ok (tally node_counts assigned_node))
        (Ok ∅) (seq 0 num_keys).

End simulation.

(** The sum of the counts of a distribution. *)
Definition total (distribution : gmap (option string) Z) : Z :=
  map_fold (fun _ count acc => count + acc) 0 distribution.

(** [dist] counts, for every outcome of [owner], the [items] that have
    it. *)
Definition tallied {K} (owner : K -> result (option string)) (items : list K)
    (dist : gmap (option string) Z) : Prop :=
  total dist = Z.of_nat (length items) /\
  (forall o, default 0 (dist !! o)
             = Z.of_nat (length (filter (fun x => owner x = Ok o) items))) /\
  (forall o c, dist !! o = Some c -> 0 < c).

(** Every stored pair sits under the node [get_node] names for its key. *)
Definition routed {V} (hash : string -> Z) (st : StorageService.t V) : Prop :=
  map_Forall
    (fun m d =>
       map_Forall
         (fun k _ => SH.get_node hash (StorageService.ring st) k = Ok m) d)
    (StorageService.storage st).

(** A key is stored under some node. *)
Definition stored {V} (stg : gmap (option string) (gmap string V)) (k : string)
    : Prop :=
  exists m d, stg !! m = Some d /\ is_Some (d !! k).

(** What the redistribution loop has done after the pairs of [data]: the
    pairs moved are stored under their owners, the keys that were stored
    are still stored under their nodes, and nothing else is stored. *)
Definition redistributed {V} (hash : string -> Z) (r : Ring.state)
    (storage0 : gmap (option string) (gmap string V))
    (res : result (gmap (option string) (gmap string V)))
    (data : gmap string V) : Prop :=
  exists stg, res = Ok stg /\
    (forall k v, data !! k = Some v ->
       exists o d, SH.get_node hash r k = Ok o /\ stg !! o = Some d /\ d !! k = Some v) /\
    (forall m d k, storage0 !! m = Some d -> is_Some (d !! k) ->
       exists d', stg !! m = Some d' /\ is_Some (d' !! k)) /\
    (forall m d' k v, stg !! m = Some d' -> d' !! k = Some v ->
       (exists d, storage0 !! m = Some d /\ d !! k = Some v) \/
       (data !! k = Some v /\ SH.get_node hash r k = Ok m)).

(** A string without the character [#]. *)
Fixpoint no_hash (s : string) : Prop :=
  match s with
  | EmptyString => True
  | String c s' => c <> "#"%char /\ no_hash s'
  end.

(** * Facts about the library functions *)

(** Published test vectors (FIPS 180-4 A.1, RFC 1321 A.5). *)
Example sha1_abc :
  Bytes.be_decode (SHA1.digest (Bytes.encode "abc"))
  = 0xa9993e364706816aba3e25717850c26c9cd0d89d.
Proof. vm_compute. reflexivity. Qed.

Example sha1_empty :
  Bytes.be_decode (SHA1.digest (Bytes.encode ""))
  = 0xda39a3ee5e6b4b0d3255bfef95601890afd80709.
Proof. vm_compute. reflexivity. Qed.

Example md5_abc :
  Bytes.be_decode (MD5.digest (Bytes.encode "abc"))
  = 0x900150983cd24fb0d6963f7d28e17f72.
Proof. vm_compute. reflexivity. Qed.

(** Messages of 55, 56 and 64 bytes, where the padding changes shape
    (values of [hashlib]). *)
Example sha1_padding :
  map (fun n => Bytes.be_decode (SHA1.digest (repeat 97 n))) [55; 56; 64]%nat
  = [0xc1c8bbdc22796e28c0e15163d20899b65621d65a;
     0xc2db330f6083854c99d4b5bfb6e8f29f201be699;
     0x0098ba824b5c16427bd7a1122a5a442a25ec644d].
Proof. vm_compute. reflexivity. Qed.

Example md5_padding :
  map (fun n => Bytes.be_decode (MD5.digest (repeat 97 n))) [55; 56; 64]%nat
  = [0xef1772b6dff9a122358552954ad0df65;
     0x3b0c8ac703f828b04c6c197006d17218;
     0x014842d480b571495a4a0363793f7367].
Proof. vm_compute. reflexivity. Qed.

Example md5_empty :
  Bytes.be_decode (MD5.digest (Bytes.encode ""))
  = 0xd41d8cd98f00b204e9800998ecf8427e.
Proof. vm_compute. reflexivity. Qed.

Section BytesFacts.
Import Bytes.

Lemma be_encode_bytes n w : Forall is_byte (be_encode n w).
Proof.
  induction n as [|n IH]; simpl; constructor; auto.
  unfold is_byte. apply Z.mod_pos_bound. lia.
Qed.

Lemma le_encode_bytes n w : Forall is_byte (le_encode n w).
Proof.
  revert w. induction n as [|n IH]; intros w; simpl; constructor; auto.
  unfold is_byte. apply Z.mod_pos_bound. lia.
Qed.

Lemma be_encode_length n w : length (be_encode n w) = n.
Proof. induction n; simpl; congruence. Qed.

Lemma le_encode_length n w : length (le_encode n w) = n.
Proof. revert w. induction n; intros; simpl; congruence. Qed.

Lemma be_fold_bound bs acc k :
  Forall is_byte bs -> 0 <= k -> 0 <= acc < 256 ^ k ->
  0 <= fold_left (fun a b => a * 256 + b) bs acc
    < 256 ^ (k + Z.of_nat (length bs)).
Proof.
  intros Hbs. revert acc k.
  induction Hbs as [|b bs Hb _ IH]; intros acc k Hk Hacc; simpl.
  - by rewrite Z.add_0_r.
  - replace (k + Z.of_nat (S (length bs)))
      with ((k + 1) + Z.of_nat (length bs)) by lia.
    apply IH; [lia|]. rewrite Z.pow_add_r by lia.
    unfold is_byte in Hb. lia.
Qed.

Lemma be_decode_bound bs :
  Forall is_byte bs -> 0 <= be_decode bs < 256 ^ Z.of_nat (length bs).
Proof.
  intros Hbs. apply (be_fold_bound bs 0 0 Hbs); lia.
Qed.

Lemma sha1_digest_length msg : length (SHA1.digest msg) = 20%nat.
Proof.
  unfold SHA1.digest.
  destruct (fold_left _ _ _) as [[[[h0 h1] h2] h3] h4].
  by rewrite !length_app, !be_encode_length.
Qed.

Lemma sha1_digest_bytes msg : Forall is_byte (SHA1.digest msg).
Proof.
  unfold SHA1.digest.
  destruct (fold_left _ _ _) as [[[[h0 h1] h2] h3] h4].
  repeat (apply Forall_app; split); apply be_encode_bytes.
Qed.

Lemma md5_digest_length msg : length (MD5.digest msg) = 16%nat.
Proof.
  unfold MD5.digest.
  destruct (fold_left _ _ _) as [[[a b] c] d].
  by rewrite !length_app, !le_encode_length.
Qed.

Lemma md5_digest_bytes msg : Forall is_byte (MD5.digest msg).
Proof.
  unfold MD5.digest.
  destruct (fold_left _ _ _) as [[[a b] c] d].
  repeat (apply Forall_app; split); apply le_encode_bytes.
Qed.

Lemma digit_value_hex_char n :
  0 <= n < 16 -> Py.digit_value (Py.hex_char n) = Some n.
Proof.
  intros Hn. rewrite <- (Z2Nat.id n) by lia.
  assert (Hlt : (Z.to_nat n < 16)%nat) by lia.
  revert Hlt. generalize (Z.to_nat n) as m. intros m Hlt.
  do 16 (destruct m as [|m]; [reflexivity|]). lia.
Qed.

Lemma int16_go_hex bs acc :
  Forall is_byte bs ->
  Py.int16_go acc (Py.hex bs) = Ok (fold_left (fun a b => a * 256 + b) bs acc).
Proof.
  intros Hbs. revert acc.
  induction Hbs as [|b bs Hb _ IH]; intros acc; simpl; [done|].
  unfold is_byte in Hb.
  rewrite !digit_value_hex_char.
  - rewrite IH. do 2 f_equal.
    pose proof (Z.div_mod b 16). lia.
  - apply Z.mod_pos_bound. lia.
  - split; [apply Z.div_pos; lia | apply Z.div_lt_upper_bound; lia].
Qed.

Lemma int16_hex bs :
  Forall is_byte bs -> bs <> [] -> Py.int16 (Py.hex bs) = Ok (be_decode bs).
Proof.
  intros Hbs Hne. destruct bs as [|b bs]; [done|].
  unfold Py.int16. change (Py.hex (b :: bs))
    with (String (Py.hex_char (b / 16)) (String (Py.hex_char (b mod 16)) (Py.hex bs))).
  change (String (Py.hex_char (b / 16)) (String (Py.hex_char (b mod 16)) (Py.hex bs)))
    with (Py.hex (b :: bs)).
  by apply int16_go_hex.
Qed.

End BytesFacts.

(** [HashFunction.hash] returns, and returns the first eight digest bytes
    read big-endian. *)
Lemma hash_returns key : HashFunction.hash key = Ok (HashFunction.position key).
Proof.
  unfold HashFunction.hash, HashFunction.position, Py.unpack_Q_be.
  rewrite length_take, sha1_digest_length. reflexivity.
Qed.

Lemma hash_position_range key : 0 <= HashFunction.position key < 2 ^ 64.
Proof.
  unfold HashFunction.position.
  pose proof (be_decode_bound (take 8 (SHA1.digest (Bytes.encode key)))) as H.
  rewrite length_take, sha1_digest_length in H.
  apply H, Forall_take, sha1_digest_bytes.
Qed.

(** [_hash] returns, and returns the sixteen digest bytes read big-endian. *)
Lemma _hash_returns key : SimpleHash._hash key = Ok (SimpleHash.position key).
Proof.
  unfold SimpleHash._hash, SimpleHash.position.
  apply int16_hex; [apply md5_digest_bytes|].
  intros Hnil. pose proof (md5_digest_length (Bytes.encode key)) as H.
  by rewrite Hnil in H.
Qed.

Lemma _hash_position_range key : 0 <= SimpleHash.position key < 2 ^ 128.
Proof.
  unfold SimpleHash.position.
  pose proof (be_decode_bound (MD5.digest (Bytes.encode key))) as H.
  rewrite md5_digest_length in H.
  apply H, md5_digest_bytes.
Qed.

(** * Binary search on sorted lists *)

Section BisectFacts.

Lemma sorted_lookup_le (a : list Z) i j u v :
  StronglySorted Z.le a -> (i <= j)%nat ->
  a !! i = Some u -> a !! j = Some v -> u <= v.
Proof.
  intros Ha. revert i j.
  induction Ha as [|x l Hl IH Hx]; intros i j Hij Hi Hj; [done|].
  destruct i as [|i], j as [|j]; simplify_eq/=.
  - lia.
  - rewrite Forall_lookup in Hx. eauto.
  - lia.
  - eapply IH; [|done..]. lia.
Qed.

(** The two loops, seen as one search for the end of the prefix on
    which a test [p] holds. *)
Variable p : Z -> bool.
Variable a : list Z.
Hypothesis p_prefix : forall i j u v,
  (i <= j)%nat -> a !! i = Some u -> a !! j = Some v -> p v = true -> p u = true.

Lemma split_at_unique r r' :
  (r <= length a)%nat -> (r' <= length a)%nat ->
  split_at p a r -> split_at p a r' -> r = r'.
Proof.
  intros Hr Hr' [H1 H2] [H1' H2'].
  destruct (Nat.lt_total r r') as [Hlt|[->|Hlt]]; [|done|].
  - destruct (lookup_lt_is_Some_2 a r) as [u Hu]; [lia|].
    assert (p u = false) by (apply (H2 r u); [lia|done]).
    assert (p u = true) by (apply (H1' r u); [lia|done]). congruence.
  - destruct (lookup_lt_is_Some_2 a r') as [u Hu]; [lia|].
    assert (p u = false) by (apply (H2' r' u); [lia|done]).
    assert (p u = true) by (apply (H1 r' u); [lia|done]). congruence.
Qed.

Lemma split_at_take_drop r :
  split_at p a r ->
  Forall (fun y => p y = true) (take r a) /\ Forall (fun y => p y = false) (drop r a).
Proof.
  intros [H1 H2]. split; apply Forall_lookup; intros i u Hi.
  - apply lookup_take_Some in Hi as [Hi Hlt]. eauto.
  - rewrite lookup_drop in Hi. eapply H2; [|done]. lia.
Qed.

Variable loop : nat -> nat -> nat -> nat.
Hypothesis loop_O : forall lo hi, loop 0 lo hi = lo.
Hypothesis loop_S : forall fuel lo hi,
  loop (S fuel) lo hi =
    if (lo <? hi)%nat then
      let mid := ((lo + hi) / 2)%nat in
      if p (nth mid a 0) then loop fuel (mid + 1)%nat hi else loop fuel lo mid
    else lo.

Lemma loop_spec fuel lo hi :
  (lo <= hi <= length a)%nat -> (hi - lo <= fuel)%nat ->
  (forall i u, (i < lo)%nat -> a !! i = Some u -> p u = true) ->
  (forall i u, (hi <= i)%nat -> a !! i = Some u -> p u = false) ->
  (lo <= loop fuel lo hi <= hi)%nat /\ split_at p a (loop fuel lo hi).
Proof.
  revert lo hi. induction fuel as [|fuel IH]; intros lo hi Hb Hfuel Hlo Hhi.
  - rewrite loop_O. assert (lo = hi) as -> by lia. by repeat split; try lia.
  - rewrite loop_S. destruct (Nat.ltb_spec lo hi) as [Hlt|Hge]; cbv zeta.
    + assert (lo <= (lo + hi) / 2 < hi)%nat as Hmid.
      { split; [apply Nat.div_le_lower_bound | apply Nat.Div0.div_lt_upper_bound]; lia. }
      destruct (lookup_lt_is_Some_2 a ((lo + hi) / 2)) as [u Hu]; [lia|].
      rewrite (nth_lookup_Some _ _ _ _ Hu).
      destruct (p u) eqn:Hpu.
      * destruct (IH ((lo + hi) / 2 + 1)%nat hi) as [? ?]; [lia|lia| |done|].
        { intros i w Hi Hw. apply (p_prefix i ((lo + hi) / 2) w u); [lia|done..]. }
        split; [lia|done].
      * destruct (IH lo ((lo + hi) / 2)%nat) as [? ?]; [lia|lia|done| |].
        { intros i w Hi Hw. destruct (p w) eqn:Hpw; [|done].
          rewrite <- Hpu. symmetry.
          apply (p_prefix ((lo + hi) / 2) i u w); [lia|done..]. }
        split; [lia|done].
    + assert (lo = hi) as -> by lia. by repeat split; try lia.
Qed.

Lemma loop_split_at :
  split_at p a (loop (length a) 0 (length a)) /\
  (loop (length a) 0 (length a) <= length a)%nat.
Proof.
  destruct (loop_spec (length a) 0 (length a)) as [? ?].
  - lia.
  - lia.
  - intros; lia.
  - intros i u Hi Hu. apply lookup_lt_Some in Hu. lia.
  - split; [done|lia].
Qed.

End BisectFacts.

Lemma bisect_left_spec (a : list Z) (x : Z) :
  Sorted Z.le a ->
  (Py.bisect_left a x <= length a)%nat /\
  Forall (fun y => y < x) (take (Py.bisect_left a x) a) /\
  Forall (fun y => x <= y) (drop (Py.bisect_left a x) a).
Proof.
  intros Ha%Sorted_StronglySorted; [|apply _].
  destruct (loop_split_at (fun y => y <? x) a) with
    (loop := fun fuel lo hi => Py.bisect_left_loop fuel a x lo hi) as [Hs Hle].
  - intros i j u v Hij Hi Hj Hv. pose proof (sorted_lookup_le a i j u v Ha Hij Hi Hj). lia.
  - done.
  - done.
  - apply split_at_take_drop in Hs as [H1 H2]. split; [done|]. split.
    + eapply Forall_impl; [exact H1|]. intros y Hy; simpl in Hy. lia.
    + eapply Forall_impl; [exact H2|]. intros y Hy; simpl in Hy. lia.
Qed.

Lemma bisect_right_spec (a : list Z) (x : Z) :
  Sorted Z.le a ->
  (Py.bisect_right a x <= length a)%nat /\
  Forall (fun y => y <= x) (take (Py.bisect_right a x) a) /\
  Forall (fun y => x < y) (drop (Py.bisect_right a x) a).
Proof.
  intros Ha%Sorted_StronglySorted; [|apply _].
  destruct (loop_split_at (fun y => negb (x <? y)) a) with
    (loop := fun fuel lo hi => Py.bisect_right_loop fuel a x lo hi) as [Hs Hle].
  - intros i j u v Hij Hi Hj Hv. pose proof (sorted_lookup_le a i j u v Ha Hij Hi Hj).
    destruct (Z.ltb_spec x u), (Z.ltb_spec x v); simpl in *; try done. lia.
  - done.
  - intros fuel lo hi. simpl. by destruct (x <? nth _ a 0).
  - apply split_at_take_drop in Hs as [H1 H2]. split; [done|]. split.
    + eapply Forall_impl; [exact H1|]. intros y Hy; simpl in Hy.
      destruct (Z.ltb_spec x y); [done|lia].
    + eapply Forall_impl; [exact H2|]. intros y Hy; simpl in Hy.
      destruct (Z.ltb_spec x y); [lia|done].
Qed.

(** * insort and discard on sorted lists *)

Section SortedListFacts.
Implicit Types ks : list Z.

Lemma StronglySorted_delete ks i :
  StronglySorted Z.le ks -> StronglySorted Z.le (delete i ks).
Proof.
  intros Hks. revert i. induction Hks as [|x l Hl IH Hx]; intros [|i]; simpl.
  - constructor.
  - constructor.
  - done.
  - constructor; [apply IH|].
    eapply Forall_forall. intros y Hy. rewrite Forall_forall in Hx.
    apply Hx. eapply elem_of_sublist; [done|apply sublist_delete].
Qed.

Lemma Sorted_le_strongly ks : Sorted Z.le ks <-> StronglySorted Z.le ks.
Proof.
  split; [apply Sorted_StronglySorted; apply _ | apply StronglySorted_Sorted].
Qed.

Lemma insort_Permutation ks x : Py.insort ks x ≡ₚ x :: ks.
Proof.
  unfold Py.insort, Py.list_insert_at.
  rewrite <- Permutation_middle. by rewrite take_drop.
Qed.

Lemma insort_sorted ks x : Sorted Z.le ks -> Sorted Z.le (Py.insort ks x).
Proof.
  intros Hks. destruct (bisect_right_spec ks x Hks) as (_ & Hle & Hgt).
  apply Sorted_le_strongly in Hks. apply Sorted_le_strongly.
  unfold Py.insort, Py.list_insert_at.
  rewrite <- (take_drop (Py.bisect_right ks x) ks) in Hks.
  apply StronglySorted_app in Hks as (Hcross & Htake & Hdrop).
  rewrite Forall_forall in Hle. rewrite Forall_forall in Hgt.
  apply StronglySorted_app_2; [|done|].
  - intros x1 x2 Hx1 [->|Hx2]%elem_of_cons; [by apply Hle|by apply Hcross].
  - constructor; [done|]. apply Forall_forall. intros y Hy.
    specialize (Hgt y Hy). lia.
Qed.

Lemma elem_of_insort ks x y : y ∈ Py.insort ks x <-> y = x \/ y ∈ ks.
Proof. by rewrite insort_Permutation, elem_of_cons. Qed.

(** On a sorted list, [bisect_left] lands on the first occurrence of an
    element that is there. *)
Lemma bisect_left_lookup ks x :
  Sorted Z.le ks -> x ∈ ks -> ks !! Py.bisect_left ks x = Some x.
Proof.
  intros Hks Hx. destruct (bisect_left_spec ks x Hks) as (_ & Hlt & Hge).
  set (r := Py.bisect_left ks x) in *.
  apply Sorted_le_strongly in Hks.
  apply list_elem_of_lookup in Hx as [j Hj].
  assert (r <= j)%nat as Hrj.
  { destruct (decide (r <= j)%nat) as [|Hn]; [done|].
    rewrite Forall_lookup in Hlt.
    specialize (Hlt j x). rewrite lookup_take_lt in Hlt by lia.
    specialize (Hlt Hj). lia. }
  destruct (lookup_lt_is_Some_2 ks r) as [y Hy].
  { apply lookup_lt_Some in Hj. lia. }
  rewrite Hy. f_equal.
  pose proof (sorted_lookup_le ks r j y x Hks Hrj Hy Hj).
  rewrite Forall_lookup in Hge. specialize (Hge 0%nat y).
  rewrite lookup_drop, Nat.add_0_r in Hge. specialize (Hge Hy). lia.
Qed.

Lemma discard_elem ks x :
  Sorted Z.le ks -> x ∈ ks -> ks ≡ₚ x :: Ring.discard ks x.
Proof.
  intros Hks Hx. unfold Ring.discard.
  pose proof (bisect_left_lookup ks x Hks Hx) as Hr.
  rewrite decide_True.
  - by apply delete_Permutation.
  - split; [by eapply lookup_lt_Some | done].
Qed.

Lemma discard_not_elem ks x : x ∉ ks -> Ring.discard ks x = ks.
Proof.
  intros Hx. unfold Ring.discard. rewrite decide_False; [done|].
  intros [_ Hr]. apply Hx. by eapply list_elem_of_lookup_2.
Qed.

Lemma discard_sorted ks x : Sorted Z.le ks -> Sorted Z.le (Ring.discard ks x).
Proof.
  intros Hks. unfold Ring.discard. case_decide; [|done].
  apply Sorted_le_strongly, StronglySorted_delete. by apply Sorted_le_strongly.
Qed.

Lemma discard_sublist ks x : Ring.discard ks x `sublist_of` ks.
Proof. unfold Ring.discard. case_decide; [apply sublist_delete|done]. Qed.

Lemma elem_of_discard_ne ks x y :
  Sorted Z.le ks -> y <> x -> y ∈ Ring.discard ks x <-> y ∈ ks.
Proof.
  intros Hks Hne. destruct (decide (x ∈ ks)) as [Hx|Hx].
  - rewrite (discard_elem ks x Hks Hx) at 2. rewrite elem_of_cons.
    split; [auto | by intros [?|?]].
  - by rewrite discard_not_elem.
Qed.

Lemma discard_NoDup ks x :
  Sorted Z.le ks -> NoDup ks -> NoDup (Ring.discard ks x) /\ x ∉ Ring.discard ks x.
Proof.
  intros Hks Hnd. destruct (decide (x ∈ ks)) as [Hx|Hx].
  - rewrite (discard_elem ks x Hks Hx) in Hnd. apply NoDup_cons in Hnd. tauto.
  - by rewrite discard_not_elem.
Qed.

End SortedListFacts.

(** * The loops of add_node and remove_node *)

Lemma foldl_invariant {A B} (I : A -> Prop) (f : A -> B -> A) (l : list B) (a : A) :
  I a -> (forall a b, b ∈ l -> I a -> I (f a b)) -> I (foldl f a l).
Proof.
  revert a. induction l as [|b l IH]; intros a Ha Hf; simpl; [done|].
  apply IH.
  - apply Hf; [left|done].
  - intros a' b' Hb'. apply Hf. by right.
Qed.

Section LoopFacts.
Import Ring.
Variable hash : string -> Z.
Implicit Types s : state.

Local Abbreviation at_ node := (fun i : nat => hash (vnode_key node i)).

Lemma place_nodes node s l : nodes (foldl (place hash node) s l) = nodes s.
Proof. revert s. induction l as [|i l IH]; intros s; simpl; [done|]. by rewrite IH. Qed.

Lemma place_ring node s l p :
  ring (foldl (place hash node) s l) !! p =
    if decide (p ∈ at_ node <$> l) then Some node else ring s !! p.
Proof.
  revert s. induction l as [|i l IH]; intros s; simpl.
  - done.
  - rewrite IH. simpl. destruct (decide (p ∈ at_ node <$> l)) as [Hin|Hnin].
    + rewrite decide_True; [done|]. by right.
    + destruct (decide (p = hash (vnode_key node i))) as [->|Hne].
      * rewrite lookup_insert_eq, decide_True; [done|]. by left.
      * rewrite lookup_insert_ne by done. rewrite decide_False; [done|].
        by intros [?|?]%elem_of_cons.
Qed.

Lemma place_sorted_keys node s l :
  sorted_keys (foldl (place hash node) s l) ≡ₚ (at_ node <$> l) ++ sorted_keys s.
Proof.
  revert s. induction l as [|i l IH]; intros s; simpl; [done|].
  rewrite IH. simpl. rewrite insort_Permutation.
  by rewrite <- Permutation_middle.
Qed.

Lemma place_sorted node s l :
  Sorted Z.le (sorted_keys s) -> Sorted Z.le (sorted_keys (foldl (place hash node) s l)).
Proof.
  intros Hs. apply (foldl_invariant (fun s => Sorted Z.le (sorted_keys s))); [done|].
  intros a i _ Ha. by apply insort_sorted.
Qed.

Lemma unplace_ring_step node s i :
  ring (unplace hash node s i) = delete (hash (vnode_key node i)) (ring s).
Proof.
  unfold unplace; simpl. case_decide as Hin; [done|].
  symmetry. apply delete_id. by apply eq_None_not_Some.
Qed.

Lemma unplace_nodes node s l : nodes (foldl (unplace hash node) s l) = nodes s.
Proof. revert s. induction l as [|i l IH]; intros s; simpl; [done|]. by rewrite IH. Qed.

Lemma unplace_ring node s l p :
  ring (foldl (unplace hash node) s l) !! p =
    if decide (p ∈ at_ node <$> l) then None else ring s !! p.
Proof.
  revert s. induction l as [|i l IH]; intros s; simpl.
  - done.
  - rewrite IH, unplace_ring_step.
    destruct (decide (p ∈ at_ node <$> l)) as [Hin|Hnin].
    + rewrite decide_True; [done|]. by right.
    + destruct (decide (p = hash (vnode_key node i))) as [->|Hne].
      * rewrite lookup_delete_eq, decide_True; [done|]. by left.
      * rewrite lookup_delete_ne by done. rewrite decide_False; [done|].
        by intros [?|?]%elem_of_cons.
Qed.

Lemma unplace_sorted_keys node s l :
  sorted_keys (foldl (unplace hash node) s l) =
    foldl discard (sorted_keys s) (at_ node <$> l).
Proof. revert s. induction l as [|i l IH]; intros s; simpl; [done|]. by rewrite IH. Qed.

Lemma discard_all_sorted ks ps :
  Sorted Z.le ks -> Sorted Z.le (foldl discard ks ps).
Proof.
  intros Hks. apply (foldl_invariant (Sorted Z.le)); [done|].
  intros a x _ Ha. by apply discard_sorted.
Qed.

Lemma discard_all_elem ks ps q :
  Sorted Z.le ks -> q ∉ ps -> q ∈ foldl discard ks ps <-> q ∈ ks.
Proof.
  revert ks. induction ps as [|x ps IH]; intros ks Hks Hq; simpl; [done|].
  apply not_elem_of_cons in Hq as [Hne Hq].
  rewrite IH by auto using discard_sorted.
  by apply elem_of_discard_ne.
Qed.

Lemma discard_all_sublist ks ps : foldl discard ks ps `sublist_of` ks.
Proof.
  revert ks. induction ps as [|x ps IH]; intros ks; simpl; [done|].
  etrans; [apply IH|apply discard_sublist].
Qed.

Lemma discard_all_NoDup ks ps :
  Sorted Z.le ks -> NoDup ks ->
  NoDup (foldl discard ks ps) /\ forall q, q ∈ ps -> q ∉ foldl discard ks ps.
Proof.
  revert ks. induction ps as [|x ps IH]; intros ks Hks Hnd; simpl.
  - split; [done|]. intros q Hq. by apply elem_of_nil in Hq.
  - destruct (discard_NoDup ks x Hks Hnd) as [Hnd' Hx].
    destruct (IH (discard ks x)) as [Hnd'' Hps]; [by apply discard_sorted|done|].
    split; [done|]. intros q [->|Hq]%elem_of_cons; [|by apply Hps].
    intros Hin. apply Hx. eapply elem_of_sublist; [done|apply discard_all_sublist].
Qed.

End LoopFacts.

(** * What add_node and remove_node do to a state *)

Section OperationFacts.
Import Ring.
Variable hash : string -> Z.
Variable R : nat.
Implicit Types s : state.

Lemma sh_remove_node X s : SH.remove_node hash R X s = CH.remove_node hash R X s.
Proof. reflexivity. Qed.

Lemma sh_add_node X s :
  SH.add_node hash R X s =
    if decide (X ∈ nodes s) then s else CH.add_node hash R X s.
Proof. reflexivity. Qed.

Lemma add_node_nodes X s : nodes (CH.add_node hash R X s) = {[X]} ∪ nodes s.
Proof. unfold CH.add_node. by rewrite place_nodes. Qed.

Lemma add_node_ring X s p :
  ring (CH.add_node hash R X s) !! p =
    if decide (p ∈ positions hash R X) then Some X else ring s !! p.
Proof. unfold CH.add_node. by rewrite place_ring. Qed.

Lemma add_node_sorted_keys X s :
  sorted_keys (CH.add_node hash R X s) ≡ₚ positions hash R X ++ sorted_keys s.
Proof. unfold CH.add_node. by rewrite place_sorted_keys. Qed.

Lemma add_node_sorted X s :
  Sorted Z.le (sorted_keys s) -> Sorted Z.le (sorted_keys (CH.add_node hash R X s)).
Proof. intros Hs. unfold CH.add_node. by apply place_sorted. Qed.

Lemma remove_node_absent X s : X ∉ nodes s -> CH.remove_node hash R X s = s.
Proof. intros HX. unfold CH.remove_node. by rewrite decide_False. Qed.

Lemma remove_node_nodes X s : nodes (CH.remove_node hash R X s) = nodes s ∖ {[X]}.
Proof.
  unfold CH.remove_node. case_decide as HX.
  - by rewrite unplace_nodes.
  - set_solver.
Qed.

Lemma remove_node_ring X s p :
  X ∈ nodes s ->
  ring (CH.remove_node hash R X s) !! p =
    if decide (p ∈ positions hash R X) then None else ring s !! p.
Proof. intros HX. unfold CH.remove_node. by rewrite decide_True, unplace_ring. Qed.

Lemma remove_node_sorted_keys X s :
  X ∈ nodes s ->
  sorted_keys (CH.remove_node hash R X s) =
    foldl discard (sorted_keys s) (positions hash R X).
Proof. intros HX. unfold CH.remove_node. by rewrite decide_True, unplace_sorted_keys. Qed.

(** ** The invariants, unfolded *)

Lemma covered_alt s :
  covered s <->
  Sorted Z.le (sorted_keys s) /\
  forall q, is_Some (ring s !! q) -> q ∈ sorted_keys s.
Proof.
  unfold covered. split; intros [Hs Hc]; (split; [done|]).
  - intros q Hq. apply elem_of_dom in Hq. apply Hc in Hq.
    by apply elem_of_list_to_set in Hq.
  - intros q Hq. apply elem_of_list_to_set, Hc. by apply elem_of_dom.
Qed.

Lemma well_formed_alt s :
  well_formed s <->
  Sorted Z.le (sorted_keys s) /\
  forall q, q ∈ sorted_keys s <-> is_Some (ring s !! q).
Proof.
  unfold well_formed. split; intros [Hs Hc]; (split; [done|]).
  - intros q. by rewrite <- elem_of_dom, <- Hc, elem_of_list_to_set.
  - apply set_eq. intros q. by rewrite elem_of_dom, elem_of_list_to_set.
Qed.

Lemma well_formed_covered s : well_formed s -> covered s.
Proof.
  rewrite well_formed_alt, covered_alt. intros [Hs Hc]. split; [done|].
  intros q. apply Hc.
Qed.

(** ** add_node *)

Lemma add_node_covered X s : covered s -> covered (CH.add_node hash R X s).
Proof.
  rewrite !covered_alt. intros [Hs Hc]. split; [by apply add_node_sorted|].
  intros q. rewrite add_node_ring, add_node_sorted_keys, elem_of_app.
  case_decide; auto.
Qed.

Lemma add_node_well_formed X s :
  well_formed s -> well_formed (CH.add_node hash R X s).
Proof.
  rewrite !well_formed_alt. intros [Hs Hc]. split; [by apply add_node_sorted|].
  intros q. rewrite add_node_ring, add_node_sorted_keys, elem_of_app, Hc.
  case_decide; [|tauto]. split; [by eexists|auto].
Qed.

Lemma add_node_owned X s : owned hash R s -> owned hash R (CH.add_node hash R X s).
Proof.
  unfold owned. rewrite !map_Forall_lookup. intros Ho p n.
  rewrite add_node_ring, add_node_nodes. case_decide as Hp.
  - intros [= <-]. split; [set_solver|done].
  - intros Hn. destruct (Ho p n Hn). split; [set_solver|done].
Qed.

Lemma add_node_exact X s :
  exact s -> NoDup (positions hash R X) ->
  (forall p, p ∈ positions hash R X -> ring s !! p = None) ->
  exact (CH.add_node hash R X s).
Proof.
  intros [Hwf Hnd] HX Hfresh. split; [by apply add_node_well_formed|].
  rewrite add_node_sorted_keys. apply NoDup_app. split; [done|]. split; [|done].
  intros p Hp Hin. apply well_formed_alt in Hwf as [_ Hc].
  apply Hc in Hin. rewrite (Hfresh p Hp) in Hin. by destruct Hin.
Qed.

Lemma add_node_placed X s :
  placed hash R s ->
  (forall n p, n ∈ nodes s -> n <> X ->
     p ∈ positions hash R n -> p ∉ positions hash R X) ->
  placed hash R (CH.add_node hash R X s).
Proof.
  intros Hpl Hdisj n p. rewrite add_node_nodes, add_node_ring.
  intros Hn Hp. destruct (decide (n = X)) as [->|Hne].
  - by rewrite decide_True.
  - assert (n ∈ nodes s) as Hn' by set_solver.
    rewrite decide_False by eauto. by apply Hpl.
Qed.

(** ** remove_node *)

Lemma remove_node_covered X s : covered s -> covered (CH.remove_node hash R X s).
Proof.
  intros Hcov. destruct (decide (X ∈ nodes s)) as [HX|HX];
    [|by rewrite remove_node_absent].
  revert Hcov. rewrite !covered_alt. intros [Hs Hc].
  rewrite remove_node_sorted_keys by done.
  split; [by apply discard_all_sorted|].
  intros q. rewrite remove_node_ring by done. case_decide as Hq.
  - by intros [? ?].
  - intros Hin. apply discard_all_elem; auto.
Qed.

Lemma remove_node_owned X s :
  owned hash R s -> owned hash R (CH.remove_node hash R X s).
Proof.
  intros Ho. destruct (decide (X ∈ nodes s)) as [HX|HX];
    [|by rewrite remove_node_absent].
  revert Ho. unfold owned. rewrite !map_Forall_lookup. intros Ho p n.
  rewrite remove_node_ring, remove_node_nodes by done. case_decide as Hp; [done|].
  intros Hn. destruct (Ho p n Hn) as [Hn1 Hn2]. split; [|done].
  apply elem_of_difference. split; [done|].
  intros ->%elem_of_singleton. done.
Qed.

Lemma remove_node_exact X s : exact s -> exact (CH.remove_node hash R X s).
Proof.
  intros Hex. destruct (decide (X ∈ nodes s)) as [HX|HX];
    [|by rewrite remove_node_absent].
  destruct Hex as [Hwf Hnd]. apply well_formed_alt in Hwf as [Hs Hc].
  destruct (discard_all_NoDup (sorted_keys s) (positions hash R X) Hs Hnd)
    as [Hnd' Hgone].
  split; [|by rewrite remove_node_sorted_keys].
  apply well_formed_alt. rewrite remove_node_sorted_keys by done.
  split; [by apply discard_all_sorted|].
  intros q. rewrite remove_node_ring by done. case_decide as Hq.
  - split; [intros Hin; by apply Hgone in Hin | by intros [? ?]].
  - rewrite discard_all_elem by done. apply Hc.
Qed.

Lemma remove_node_placed X s :
  placed hash R s ->
  (forall n p, n ∈ nodes s -> n <> X ->
     p ∈ positions hash R n -> p ∉ positions hash R X) ->
  placed hash R (CH.remove_node hash R X s).
Proof.
  intros Hpl Hdisj. destruct (decide (X ∈ nodes s)) as [HX|HX];
    [|by rewrite remove_node_absent].
  intros n p. rewrite remove_node_nodes, remove_node_ring by done.
  intros [Hn Hne]%elem_of_difference Hp.
  rewrite decide_False.
  - by apply Hpl.
  - apply (Hdisj n p); [done| |done]. set_solver.
Qed.

End OperationFacts.

(** * Reachable states *)

Section ReachableFacts.
Import Ring.
Variable hash : string -> Z.
Variable R : nat.
Implicit Types s : state.

Lemma empty_covered : covered empty.
Proof. split; [constructor|done]. Qed.

Lemma empty_exact : exact empty.
Proof. split; [split; [constructor|done]|constructor]. Qed.

Lemma empty_owned : owned hash R empty.
Proof. apply map_Forall_empty. Qed.

Lemma empty_placed : placed hash R empty.
Proof. intros n p Hn. by apply elem_of_empty in Hn. Qed.

Lemma ch_reachable_inv P s :
  CH.reachable hash R P s ->
  covered s /\ owned hash R s /\ forall n, n ∈ nodes s -> P n.
Proof.
  induction 1 as [|X s HX _ (Hc & Ho & HP)|X s _ (Hc & Ho & HP)].
  - split; [apply empty_covered|]. split; [apply empty_owned|].
    intros n Hn. by apply elem_of_empty in Hn.
  - split; [by apply add_node_covered|]. split; [by apply add_node_owned|].
    intros n. rewrite add_node_nodes.
    intros [->%elem_of_singleton|Hn]%elem_of_union; auto.
  - split; [by apply remove_node_covered|]. split; [by apply remove_node_owned|].
    intros n. rewrite remove_node_nodes. intros [Hn _]%elem_of_difference. auto.
Qed.

Lemma sh_reachable_ch P s : SH.reachable hash R P s -> CH.reachable hash R P s.
Proof.
  induction 1 as [|X s HX _ IH|X s _ IH].
  - constructor.
  - rewrite sh_add_node. case_decide; [done|]. by constructor.
  - rewrite sh_remove_node. by constructor.
Qed.

Lemma ch_fresh_sh P s : CH.reachable_fresh hash R P s -> SH.reachable hash R P s.
Proof.
  induction 1 as [|X s HX Hfresh _ IH|X s _ IH].
  - constructor.
  - replace (CH.add_node hash R X s) with (SH.add_node hash R X s).
    + by constructor.
    + rewrite sh_add_node. by rewrite decide_False.
  - rewrite <- sh_remove_node. by constructor.
Qed.

(** ** Without collisions *)

Lemma collision_free_NoDup names X :
  collision_free hash R names -> X ∈ names -> NoDup (positions hash R X).
Proof.
  unfold collision_free. induction names as [|n ns IH]; intros Hcf HX.
  - by apply elem_of_nil in HX.
  - simpl in Hcf. apply NoDup_app in Hcf as (Hn & _ & Hns).
    apply elem_of_cons in HX as [->|HX]; auto.
Qed.

Lemma collision_free_inj names X Y p :
  collision_free hash R names -> X ∈ names -> Y ∈ names ->
  p ∈ positions hash R X -> p ∈ positions hash R Y -> X = Y.
Proof.
  unfold collision_free. induction names as [|n ns IH]; intros Hcf HX HY HpX HpY.
  - by apply elem_of_nil in HX.
  - simpl in Hcf. apply NoDup_app in Hcf as (_ & Hdisj & Hns).
    apply elem_of_cons in HX as [->|HX]; apply elem_of_cons in HY as [->|HY].
    + done.
    + exfalso. apply (Hdisj p HpX). apply list_elem_of_bind. eauto.
    + exfalso. apply (Hdisj p HpY). apply list_elem_of_bind. eauto.
    + auto.
Qed.

Lemma ch_reachable_placed names s :
  collision_free hash R names ->
  CH.reachable hash R (.∈ names) s -> placed hash R s.
Proof.
  intros Hcf. induction 1 as [|X s HX Hs IH|X s Hs IH].
  - apply empty_placed.
  - apply add_node_placed; [done|]. intros n p Hn Hne Hp HpX.
    apply Hne. apply (collision_free_inj names n X p); try done.
    by apply (ch_reachable_inv _ _ Hs).
  - destruct (decide (X ∈ nodes s)) as [HX|HX]; [|by rewrite remove_node_absent].
    apply remove_node_placed; [done|]. intros n p Hn Hne Hp HpX.
    apply Hne. apply (collision_free_inj names n X p); try done.
    + by apply (ch_reachable_inv _ _ Hs).
    + by apply (ch_reachable_inv _ _ Hs).
Qed.

Lemma sh_reachable_exact names s :
  collision_free hash R names ->
  SH.reachable hash R (.∈ names) s -> exact s.
Proof.
  intros Hcf. induction 1 as [|X s HX Hs IH|X s Hs IH].
  - apply empty_exact.
  - rewrite sh_add_node. case_decide as Hin; [done|].
    apply add_node_exact; [done|by apply (collision_free_NoDup names)|].
    intros p Hp. destruct (ring s !! p) as [n|] eqn:Hn; [|done].
    exfalso. apply Hin.
    destruct (ch_reachable_inv _ _ (sh_reachable_ch _ _ Hs)) as (_ & Ho & HP).
    apply (map_Forall_lookup_1 _ _ _ _ Ho) in Hn as [Hn1 Hn2].
    by rewrite <- (collision_free_inj names n X p Hcf (HP n Hn1) HX Hn2 Hp).
  - rewrite sh_remove_node. by apply remove_node_exact.
Qed.

(** ** The mapping is empty exactly when no node is active *)

Lemma owned_no_nodes s : owned hash R s -> nodes s = ∅ -> ring s = ∅.
Proof.
  intros Ho Hn. apply map_empty. intros p.
  destruct (ring s !! p) as [n|] eqn:Hp; [|done].
  apply (map_Forall_lookup_1 _ _ _ _ Ho) in Hp as [Hin _].
  rewrite Hn in Hin. by apply elem_of_empty in Hin.
Qed.

Lemma placed_some_node s :
  (0 < R)%nat -> placed hash R s -> nodes s <> ∅ -> ring s <> ∅.
Proof.
  intros HR Hpl Hn Hempty. apply set_choose_L in Hn as [n Hn].
  specialize (Hpl n (hash (vnode_key n 0)) Hn).
  rewrite Hempty, lookup_empty in Hpl. discriminate Hpl.
  unfold positions. apply list_elem_of_fmap. exists 0%nat. split; [done|].
  apply elem_of_seq. lia.
Qed.

End ReachableFacts.

(** * Lookup *)

Section LookupFacts.
Import Ring.
Implicit Types s : state.

Lemma owner_at_mapped s idx p :
  (forall q, q ∈ sorted_keys s -> is_Some (ring s !! q)) ->
  sorted_keys s !! idx = Some p ->
  exists n, owner_at s idx = Ok (Some n) /\ ring s !! p = Some n.
Proof.
  intros Hc Hp. unfold owner_at. rewrite Hp.
  destruct (Hc p) as [n Hn]; [by eapply list_elem_of_lookup_2|].
  rewrite Hn. eauto.
Qed.

(** The index both [get_node]s compute, for a cut [r] of the sorted
    sequence into the positions [before] the key and those [after]. *)
Lemma owner_at_cut s (before after : Z -> Prop) (r : nat) :
  well_formed s -> ring s <> ∅ ->
  (forall y, before y -> after y -> False) ->
  (r <= length (sorted_keys s))%nat ->
  Forall before (take r (sorted_keys s)) ->
  Forall after (drop r (sorted_keys s)) ->
  exists n,
    owner_at s (if decide (r = length (sorted_keys s)) then 0%nat else r)
      = Ok (Some n) /\
    ((exists p, ring s !! p = Some n /\ after p /\
        forall q, is_Some (ring s !! q) -> after q -> p <= q)
     \/
     ((forall q, is_Some (ring s !! q) -> before q) /\
      exists p, ring s !! p = Some n /\
        forall q, is_Some (ring s !! q) -> p <= q)).
Proof.
  intros [Hs Hc]%well_formed_alt Hne Hexcl Hr Hbefore Hafter.
  apply Sorted_le_strongly in Hs.
  rewrite Forall_lookup in Hbefore. rewrite Forall_lookup in Hafter.
  case_decide as Hend.
  - (* wrap around *)
    apply map_choose in Hne as (q0 & n0 & Hq0).
    assert (q0 ∈ sorted_keys s) as Hin by (apply Hc; eauto).
    apply list_elem_of_lookup in Hin as [j0 Hj0]. apply lookup_lt_Some in Hj0.
    destruct (lookup_lt_is_Some_2 (sorted_keys s) 0) as [k0 Hk0]; [lia|].
    destruct (owner_at_mapped s 0 k0) as (n & Hown & Hn); [apply Hc|done|].
    exists n. split; [done|]. right. split.
    + intros q Hq. apply Hc in Hq.
      apply list_elem_of_lookup in Hq as [j Hj].
      apply (Hbefore j q). rewrite lookup_take_lt; [done|].
      apply lookup_lt_Some in Hj. lia.
    + exists k0. split; [done|]. intros q Hq. apply Hc in Hq.
      apply list_elem_of_lookup in Hq as [j Hj].
      apply (sorted_lookup_le (sorted_keys s) 0 j k0 q); [done|lia|done|done].
  - destruct (lookup_lt_is_Some_2 (sorted_keys s) r) as [p Hp]; [lia|].
    destruct (owner_at_mapped s r p) as (n & Hown & Hn); [apply Hc|done|].
    exists n. split; [done|]. left. exists p. split; [done|]. split.
    + apply (Hafter 0%nat p). by rewrite lookup_drop, Nat.add_0_r.
    + intros q Hq Haq. apply Hc in Hq.
      apply list_elem_of_lookup in Hq as [j Hj].
      destruct (decide (r <= j)%nat) as [Hrj|Hjr].
      * by apply (sorted_lookup_le (sorted_keys s) r j p q).
      * exfalso. apply (Hexcl q); [|done].
        apply (Hbefore j q). rewrite lookup_take_lt; [done|lia].
Qed.

Variable hash : string -> Z.

(** consistent_hashing's [get_node] follows policy A. *)
Lemma ch_get_node_policy_A s key :
  well_formed s -> ring s <> ∅ ->
  exists n, CH.get_node hash s key = Ok (Some n) /\ successor_A s (hash key) n.
Proof.
  intros Hwf Hne. unfold CH.get_node. rewrite decide_False by done. cbv zeta.
  destruct (bisect_left_spec (sorted_keys s) (hash key)) as (Hr & Hlt & Hge);
    [apply Hwf|].
  apply (owner_at_cut s (fun y => y < hash key) (fun y => hash key <= y)); auto.
  intros y; lia.
Qed.

(** simple_hashing's [get_node] follows policy B. *)
Lemma sh_get_node_policy_B s key :
  well_formed s -> ring s <> ∅ ->
  exists n, SH.get_node hash s key = Ok (Some n) /\ successor_B s (hash key) n.
Proof.
  intros Hwf Hne. unfold SH.get_node. rewrite decide_False by done. cbv zeta.
  destruct (bisect_right_spec (sorted_keys s) (hash key)) as (Hr & Hle & Hgt);
    [apply Hwf|].
  apply (owner_at_cut s (fun y => y <= hash key) (fun y => hash key < y)); auto.
  intros y; lia.
Qed.

Lemma successor_A_mapped s h n : successor_A s h n -> exists p, ring s !! p = Some n.
Proof. intros [(p & ? & _)|[_ (p & ? & _)]]; eauto. Qed.

Lemma successor_B_mapped s h n : successor_B s h n -> exists p, ring s !! p = Some n.
Proof. intros [(p & ? & _)|[_ (p & ? & _)]]; eauto. Qed.

Lemma ch_get_node_empty s key : ring s = ∅ -> CH.get_node hash s key = Ok None.
Proof. intros He. unfold CH.get_node. by rewrite decide_True. Qed.

Lemma sh_get_node_empty s key : ring s = ∅ -> SH.get_node hash s key = Ok None.
Proof. intros He. unfold SH.get_node. by rewrite decide_True. Qed.

Lemma owner_at_not_None s idx : owner_at s idx <> Ok None.
Proof. unfold owner_at. by repeat case_match. Qed.

Lemma ch_get_node_None s key : CH.get_node hash s key = Ok None <-> ring s = ∅.
Proof.
  split; [|apply ch_get_node_empty]. unfold CH.get_node.
  case_decide; [done|]. intros H'. by apply owner_at_not_None in H'.
Qed.

Lemma sh_get_node_None s key : SH.get_node hash s key = Ok None <-> ring s = ∅.
Proof.
  split; [|apply sh_get_node_empty]. unfold SH.get_node.
  case_decide; [done|]. intros H'. by apply owner_at_not_None in H'.
Qed.

End LookupFacts.

Lemma Ok_inj {A} (a b : A) : Ok a = Ok b -> a = b.
Proof. by intros [= ->]. Qed.

(** * The hash functions (C6) *)

(** C6, as stated, fails on simple_hashing: [_hash("")] is the whole
    128-bit MD5 digest, which does not fit in 64 bits. *)
Lemma C6_md5_not_64_bits :
  ~ (exists v, SimpleHash._hash "" = Ok v /\ 0 <= v < 2 ^ 64).
Proof.
  intros (v & Hv & Hrange). rewrite _hash_returns in Hv.
  apply Ok_inj in Hv. subst v.
  assert (2 ^ 64 <= SimpleHash.position "") by (vm_compute; discriminate).
  lia.
Qed.

(** C6, amended: for every string, [HashFunction.hash] returns the first
    eight bytes of the SHA-1 digest of the encoded string read as a
    big-endian unsigned integer, a value below 2^64; [_hash] returns the
    sixteen bytes of the MD5 digest read the same way, a value below
    2^128.  Neither raises. *)
Theorem C6_hash_values (key : string) :
  (HashFunction.hash key
     = Ok (Bytes.be_decode (take 8 (SHA1.digest (Bytes.encode key)))) /\
   0 <= Bytes.be_decode (take 8 (SHA1.digest (Bytes.encode key))) < 2 ^ 64) /\
  (SimpleHash._hash key = Ok (Bytes.be_decode (MD5.digest (Bytes.encode key))) /\
   0 <= Bytes.be_decode (MD5.digest (Bytes.encode key)) < 2 ^ 128).
Proof.
  split; split.
  - apply hash_returns.
  - apply hash_position_range.
  - apply _hash_returns.
  - apply _hash_position_range.
Qed.

(** * Lookup policy (C1, C7) *)

(** C1, as stated, fails on simple_hashing: with nodes "A" and "B" of one
    virtual node each, the key ["A#0"] hashes exactly to A's position,
    which is then the smallest position [>=] the key's, yet [get_node]
    answers "B". *)
Lemma C1_simple_hashing_not_policy_A :
  let s := SH.add_node SimpleHash.position 1 "B"
             (SH.add_node SimpleHash.position 1 "A" Ring.empty) in
  well_formed s /\ Ring.ring s <> ∅ /\
  SimpleHash.position "A#0" = 330307766145524440537865738102367803242 /\
  Ring.sorted_keys s =
    [183326420683520159455423057463185615042;
     330307766145524440537865738102367803242] /\
  Ring.ring s !! 330307766145524440537865738102367803242 = Some "A" /\
  SH.get_node SimpleHash.position s "A#0" = Ok (Some "B") /\
  ~ (exists n, SH.get_node SimpleHash.position s "A#0" = Ok (Some n) /\
               successor_A s (SimpleHash.position "A#0") n).
Proof.
  intros s. split; [by_evaluation|]. split; [by_evaluation|].
  assert (Ring.ring s !! SimpleHash.position "A#0" = Some "A") as Hown
    by (vm_compute; reflexivity).
  assert (SH.get_node SimpleHash.position s "A#0" = Ok (Some "B")) as Hget
    by (vm_compute; reflexivity).
  split; [vm_compute; reflexivity|]. split; [vm_compute; reflexivity|].
  split; [vm_compute; reflexivity|]. split; [exact Hget|].
  intros (n & Hn & Hsucc). rewrite Hget in Hn.
  apply Ok_inj, (inj Some) in Hn. subst n.
  destruct Hsucc as [(p & Hp & Hle & Hmin)|[Hall _]].
  - assert (p <= SimpleHash.position "A#0") as Hge.
    { apply Hmin; [by rewrite Hown|lia]. }
    assert (p = SimpleHash.position "A#0") as -> by lia.
    rewrite Hown in Hp. discriminate Hp.
  - specialize (Hall (SimpleHash.position "A#0")). rewrite Hown in Hall.
    specialize (Hall (ltac:(by eexists))). lia.
Qed.

(** C1, amended: on every non-empty ring (the sequence sorted and holding
    the keys of the mapping) and for every key, [get_node] of
    consistent_hashing returns the node mapped to the smallest position
    greater than or equal to [hash(key)] (policy A), and [get_node] of
    simple_hashing returns the node mapped to the smallest position
    strictly greater than [hash(key)] (policy B); both wrap to the node at
    the smallest position when no position qualifies. *)
Theorem C1_get_node_policy (hash : string -> Z) (s : Ring.state) (key : string)
    (Hwf : well_formed s) (Hne : Ring.ring s <> ∅) :
  (exists n, CH.get_node hash s key = Ok (Some n) /\ successor_A s (hash key) n) /\
  (exists n, SH.get_node hash s key = Ok (Some n) /\ successor_B s (hash key) n).
Proof.
  split; [by apply ch_get_node_policy_A | by apply sh_get_node_policy_B].
Qed.

Lemma C1_get_node_policy_witness :
  let s := CH.add_node HashFunction.position 1 "B"
             (CH.add_node HashFunction.position 1 "A" Ring.empty) in
  well_formed s /\ Ring.ring s <> ∅ /\
  (exists n, CH.get_node HashFunction.position s "A#0" = Ok (Some n) /\
             successor_A s (HashFunction.position "A#0") n) /\
  (exists n, SH.get_node HashFunction.position s "A#0" = Ok (Some n) /\
             successor_B s (HashFunction.position "A#0") n).
Proof.
  intros s.
  assert (well_formed s) as Hwf by (by_evaluation).
  assert (Ring.ring s <> ∅) as Hne by (by_evaluation).
  split; [exact Hwf|]. split; [exact Hne|].
  exact (C1_get_node_policy HashFunction.position s "A#0" Hwf Hne).
Defined.

(** * Wrap-around (C7) *)

(** When the first entry of the sequence is a position the mapping
    lacks, every lookup that wraps around raises [KeyError], in both
    files and under every hasher. *)
Lemma wrap_orphan_KeyError (hash : string -> Z) (s : Ring.state) (key : string)
    (p : Z) :
  Sorted Z.le (Ring.sorted_keys s) -> Ring.ring s <> ∅ ->
  Ring.sorted_keys s !! 0%nat = Some p -> Ring.ring s !! p = None ->
  Forall (fun q => q < hash key) (Ring.sorted_keys s) ->
  CH.get_node hash s key = Raise KeyError /\
  SH.get_node hash s key = Raise KeyError.
Proof.
  intros Hsorted Hne Hp Hnone Hall.
  assert (forall idx, (idx <= length (Ring.sorted_keys s))%nat ->
            Forall (fun y => hash key <= y) (drop idx (Ring.sorted_keys s)) ->
            idx = length (Ring.sorted_keys s)) as Hend.
  { intros idx Hle Hdrop.
    destruct (decide (idx = length (Ring.sorted_keys s))) as [|Hlt]; [done|].
    destruct (lookup_lt_is_Some_2 (Ring.sorted_keys s) idx) as [y Hy]; [lia|].
    assert (y < hash key)
      by (rewrite Forall_lookup in Hall; by apply (Hall idx)).
    assert (hash key <= y).
    { rewrite Forall_lookup in Hdrop. apply (Hdrop 0%nat).
      rewrite lookup_drop. by rewrite Nat.add_0_r. }
    lia. }
  assert (Ring.owner_at s 0 = Raise KeyError) as Hown.
  { unfold Ring.owner_at. by rewrite Hp, Hnone. }
  split.
  - unfold CH.get_node. rewrite decide_False by done.
    destruct (bisect_left_spec (Ring.sorted_keys s) (hash key) Hsorted)
      as (Hle & _ & Hdrop).
    simpl. by rewrite decide_True by (by apply Hend).
  - unfold SH.get_node. rewrite decide_False by done.
    destruct (bisect_right_spec (Ring.sorted_keys s) (hash key) Hsorted)
      as (Hle & _ & Hdrop).
    simpl. rewrite decide_True; [done|]. apply Hend; [done|].
    eapply Forall_impl; [exact Hdrop|]. intros y Hy. simpl in Hy. lia.
Qed.

(** C7, as stated, fails when two virtual-node keys collide: with two
    virtual nodes per node and ["A#0"], ["B#0"] at position 5, after
    [add_node("A")], [add_node("B")], [remove_node("B")] node A is active
    and owns the one position of the mapping, 7, while the sequence still
    starts with 5; the key ["B#1"] hashes to 9, above every position, the
    lookup wraps to the first entry and [get_node] raises [KeyError], in
    both files. *)
Lemma C7_wrap_KeyError :
  let s := SH.remove_node colliding_hash 2 "B"
             (SH.add_node colliding_hash 2 "B"
                (SH.add_node colliding_hash 2 "A" Ring.empty)) in
  SH.reachable colliding_hash 2 (fun _ => True) s /\
  CH.reachable_fresh colliding_hash 2 (fun _ => True) s /\
  Ring.nodes s = {["A"]} /\
  Ring.ring s = {[ 7 := "A" ]} /\
  Ring.sorted_keys s = [5; 7] /\
  colliding_hash "B#1" = 9 /\
  SH.get_node colliding_hash s "B#1" = Raise KeyError /\
  CH.get_node colliding_hash s "B#1" = Raise KeyError.
Proof.
  intros s. split; [|split].
  - repeat constructor.
  - apply CH.fresh_remove.
    change (SH.add_node colliding_hash 2 "B" (SH.add_node colliding_hash 2 "A" Ring.empty))
      with (CH.add_node colliding_hash 2 "B" (CH.add_node colliding_hash 2 "A" Ring.empty)).
    apply CH.fresh_add; [done|by_evaluation|].
    apply CH.fresh_add; [done|by_evaluation|constructor].
  - split; [vm_compute; reflexivity|]. split; [by_evaluation|].
    split; [vm_compute; reflexivity|]. split; [reflexivity|].
    split; vm_compute; reflexivity.
Qed.

(** C7, amended: on every non-empty ring whose sequence is sorted and
    holds exactly the positions that are keys of the mapping, a key whose
    hash is strictly greater than every placed position resolves, in both
    files, to the node at the smallest placed position; [get_node]
    returns and does not raise. *)
Theorem C7_wrap_around (hash : string -> Z) (s : Ring.state) (key : string)
    (Hwf : well_formed s) (Hne : Ring.ring s <> ∅)
    (Hgt : map_Forall (fun q _ => q < hash key) (Ring.ring s)) :
  exists p n,
    Ring.ring s !! p = Some n /\
    (forall q, is_Some (Ring.ring s !! q) -> p <= q) /\
    CH.get_node hash s key = Ok (Some n) /\
    SH.get_node hash s key = Ok (Some n).
Proof.
  rewrite map_Forall_lookup in Hgt.
  destruct (ch_get_node_policy_A hash s key Hwf Hne) as (n & Hch & HA).
  destruct (sh_get_node_policy_B hash s key Hwf Hne) as (n' & Hsh & HB).
  destruct HA as [(p & Hp & Hle & _)|[_ (p & Hp & Hmin)]].
  { specialize (Hgt p n Hp). simpl in Hgt. lia. }
  destruct HB as [(p' & Hp' & Hlt & _)|[_ (p' & Hp' & Hmin')]].
  { specialize (Hgt p' n' Hp'). simpl in Hgt. lia. }
  assert (p = p') as <-.
  { apply Z.le_antisymm; [apply Hmin|apply Hmin']; by eexists. }
  assert (n' = n) as -> by congruence.
  exists p, n. auto.
Qed.

Lemma C7_wrap_around_witness :
  let s := CH.add_node HashFunction.position 1 "B"
             (CH.add_node HashFunction.position 1 "A" Ring.empty) in
  well_formed s /\ Ring.ring s <> ∅ /\
  map_Forall (fun q _ => q < HashFunction.position "key_0") (Ring.ring s) /\
  exists p n,
    Ring.ring s !! p = Some n /\
    (forall q, is_Some (Ring.ring s !! q) -> p <= q) /\
    CH.get_node HashFunction.position s "key_0" = Ok (Some n) /\
    SH.get_node HashFunction.position s "key_0" = Ok (Some n).
Proof.
  intros s.
  assert (well_formed s) as Hwf by (by_evaluation).
  assert (Ring.ring s <> ∅) as Hne by (by_evaluation).
  assert (map_Forall (fun q _ => q < HashFunction.position "key_0") (Ring.ring s))
    as Hgt by (by_evaluation).
  split; [exact Hwf|]. split; [exact Hne|]. split; [exact Hgt|].
  exact (C7_wrap_around HashFunction.position s "key_0" Hwf Hne Hgt).
Defined.

(** * Removing a node that is not active (C8) *)

(** C8: for a node that is not in the active set, [remove_node] returns
    at its first test and the state (mapping, sequence, active set) is
    the one it was called on, in both files. *)
Theorem C8_remove_node_absent (hash : string -> Z) (R : nat) (X : string)
    (s : Ring.state) (HX : X ∉ Ring.nodes s) :
  CH.remove_node hash R X s = s /\ SH.remove_node hash R X s = s.
Proof.
  split; [|rewrite sh_remove_node]; by apply remove_node_absent.
Qed.

Lemma C8_remove_node_absent_witness :
  ("A" ∉ Ring.nodes Ring.empty) /\
  CH.remove_node HashFunction.position 100 "A" Ring.empty = Ring.empty /\
  SH.remove_node HashFunction.position 100 "A" Ring.empty = Ring.empty.
Proof.
  assert ("A" ∉ Ring.nodes Ring.empty) as HX by (by_evaluation).
  split; [exact HX|].
  exact (C8_remove_node_absent HashFunction.position 100 "A" Ring.empty HX).
Defined.

(** * Adding a node twice (C3) *)

(** simple_hashing's [add_node] is idempotent: its first test returns
    when the node is active. *)
Lemma sh_add_node_idempotent hash R X s :
  SH.add_node hash R X (SH.add_node hash R X s) = SH.add_node hash R X s.
Proof.
  rewrite (sh_add_node hash R X s). case_decide as HX.
  - rewrite sh_add_node. by rewrite decide_True.
  - rewrite sh_add_node. rewrite decide_True; [done|].
    rewrite add_node_nodes. set_solver.
Qed.

(** consistent_hashing's [add_node] has no such test: every call inserts
    [R] more entries into the sequence. *)
Lemma ch_add_node_length hash R X s :
  length (Ring.sorted_keys (CH.add_node hash R X s))
  = (R + length (Ring.sorted_keys s))%nat.
Proof.
  rewrite add_node_sorted_keys, length_app. unfold positions.
  by rewrite length_fmap, length_seq.
Qed.

Lemma ch_add_node_not_idempotent hash R X s :
  (0 < R)%nat ->
  CH.add_node hash R X (CH.add_node hash R X s) <> CH.add_node hash R X s.
Proof.
  intros HR Heq. apply (f_equal (fun t => length (Ring.sorted_keys t))) in Heq.
  rewrite !ch_add_node_length in Heq. lia.
Qed.

(** C3 at its failing input: on a consistent_hashing ring with one
    virtual node per node, a second [add_node("A")] inserts A's position
    into the sequence a second time, so the state differs from the state
    after one call; simple_hashing's [add_node] leaves the state as it
    is. *)
Theorem C3_add_node_twice :
  let once := CH.add_node HashFunction.position 1 "A" Ring.empty in
  let twice := CH.add_node HashFunction.position 1 "A" once in
  Ring.sorted_keys once = [2540805760424024442] /\
  Ring.sorted_keys twice = [2540805760424024442; 2540805760424024442] /\
  twice <> once /\
  SH.add_node SimpleHash.position 1 "A"
    (SH.add_node SimpleHash.position 1 "A" Ring.empty)
  = SH.add_node SimpleHash.position 1 "A" Ring.empty.
Proof.
  intros once twice.
  split; [vm_compute; reflexivity|]. split; [vm_compute; reflexivity|].
  split; [apply ch_add_node_not_idempotent; lia|apply sh_add_node_idempotent].
Qed.

(** * Lookups on reachable states (C2, C9) *)

(** C2, as stated, fails when two virtual-node keys collide: with two
    virtual nodes per node and ["A#0"], ["B#0"] at one position, after
    [add_node("A")], [add_node("B")], [remove_node("A")] node B is active
    and [get_node] raises [KeyError], in both files. *)
Lemma C2_collision_KeyError :
  let s := SH.remove_node colliding_hash 2 "A"
             (SH.add_node colliding_hash 2 "B"
                (SH.add_node colliding_hash 2 "A" Ring.empty)) in
  SH.reachable colliding_hash 2 (fun _ => True) s /\
  CH.reachable_fresh colliding_hash 2 (fun _ => True) s /\
  Ring.nodes s = {["B"]} /\
  SH.get_node colliding_hash s "k" = Raise KeyError /\
  CH.get_node colliding_hash s "k" = Raise KeyError.
Proof.
  intros s. split; [|split].
  - repeat constructor.
  - apply CH.fresh_remove.
    change (SH.add_node colliding_hash 2 "B" (SH.add_node colliding_hash 2 "A" Ring.empty))
      with (CH.add_node colliding_hash 2 "B" (CH.add_node colliding_hash 2 "A" Ring.empty)).
    apply CH.fresh_add; [done|by_evaluation|].
    apply CH.fresh_add; [done|by_evaluation|constructor].
  - split; [vm_compute; reflexivity|]. split; vm_compute; reflexivity.
Qed.

(** C2, amended: when the replica count is positive and no two
    virtual-node keys of the nodes that may be added hash to the same
    position, then in every state with an active node that simple_hashing
    reaches by [add_node] and [remove_node] calls, and in every such state
    that consistent_hashing reaches without calling [add_node] for a node
    that is active, [get_node] returns, for every key, a node of the
    active set. *)
Theorem C2_get_node_active (hash : string -> Z) (R : nat) (names : list string)
    (s : Ring.state) (key : string)
    (HR : (0 < R)%nat) (Hcf : collision_free hash R names)
    (Hactive : Ring.nodes s <> ∅) :
  (SH.reachable hash R (.∈ names) s ->
     exists n, SH.get_node hash s key = Ok (Some n) /\ n ∈ Ring.nodes s) /\
  (CH.reachable_fresh hash R (.∈ names) s ->
     exists n, CH.get_node hash s key = Ok (Some n) /\ n ∈ Ring.nodes s).
Proof.
  assert (SH.reachable hash R (.∈ names) s ->
          well_formed s /\ owned hash R s /\ Ring.ring s <> ∅) as Hinv.
  { intros Hs. pose proof (sh_reachable_ch _ _ _ _ Hs) as Hc.
    split; [apply (sh_reachable_exact hash R names s Hcf Hs)|].
    split; [apply (ch_reachable_inv _ _ _ _ Hc)|].
    apply (placed_some_node hash R); [done| |done].
    by apply (ch_reachable_placed hash R names). }
  split.
  - intros (Hwf & Ho & Hne)%Hinv.
    destruct (sh_get_node_policy_B hash s key Hwf Hne) as (n & Hget & Hn).
    exists n. split; [done|]. apply successor_B_mapped in Hn as [p Hp].
    by apply (map_Forall_lookup_1 _ _ _ _ Ho) in Hp as [? _].
  - intros (Hwf & Ho & Hne)%ch_fresh_sh%Hinv.
    destruct (ch_get_node_policy_A hash s key Hwf Hne) as (n & Hget & Hn).
    exists n. split; [done|]. apply successor_A_mapped in Hn as [p Hp].
    by apply (map_Forall_lookup_1 _ _ _ _ Ho) in Hp as [? _].
Qed.

Lemma C2_get_node_active_witness :
  let s := SH.add_node SimpleHash.position 2 "A" Ring.empty in
  let s' := CH.add_node SimpleHash.position 2 "A" Ring.empty in
  (0 < 2)%nat /\ collision_free SimpleHash.position 2 ["A"; "B"] /\
  Ring.nodes s <> ∅ /\
  (exists n, SH.get_node SimpleHash.position s "k" = Ok (Some n) /\ n ∈ Ring.nodes s) /\
  (exists n, CH.get_node SimpleHash.position s' "k" = Ok (Some n) /\ n ∈ Ring.nodes s').
Proof.
  intros s s'.
  assert (collision_free SimpleHash.position 2 ["A"; "B"]) as Hcf by (by_evaluation).
  assert (Ring.nodes s <> ∅) as Hactive by (by_evaluation).
  split; [lia|]. split; [exact Hcf|]. split; [exact Hactive|].
  split.
  - apply (proj1 (C2_get_node_active SimpleHash.position 2 ["A"; "B"] s "k"
                    ltac:(lia) Hcf Hactive)).
    apply SH.reachable_add; [by_evaluation|constructor].
  - apply (proj2 (C2_get_node_active SimpleHash.position 2 ["A"; "B"] s' "k"
                    ltac:(lia) Hcf Hactive)).
    apply CH.fresh_add; [by_evaluation|by_evaluation|constructor].
Defined.

(** C9, as stated, fails when two virtual-node keys collide: with one
    virtual node per node and ["A#0"], ["B#0"] at one position, after
    [add_node("A")], [add_node("B")], [remove_node("A")] node B is active
    but the mapping is empty, and [get_node] returns [None], in both
    files. *)
Lemma C9_None_with_active_node :
  let s := SH.remove_node colliding_hash 1 "A"
             (SH.add_node colliding_hash 1 "B"
                (SH.add_node colliding_hash 1 "A" Ring.empty)) in
  SH.reachable colliding_hash 1 (fun _ => True) s /\
  Ring.nodes s = {["B"]} /\
  SH.get_node colliding_hash s "k" = Ok None /\
  CH.get_node colliding_hash s "k" = Ok None.
Proof.
  intros s. split; [repeat constructor|].
  split; [vm_compute; reflexivity|]. split; vm_compute; reflexivity.
Qed.

(** C9, amended: [get_node] returns [None] exactly when the
    position-to-node mapping is empty.  In every reachable state that is
    the case when no node is active, so on a ring without active nodes
    [get_node] returns [None] for every key and does not raise; when the
    replica count is positive and no two virtual-node keys of the nodes
    that may be added hash to the same position, it is the case only when
    no node is active. *)
Theorem C9_get_node_None (hash : string -> Z) (R : nat) (names : list string)
    (s : Ring.state) (key : string) :
  (SH.get_node hash s key = Ok None <-> Ring.ring s = ∅) /\
  (CH.get_node hash s key = Ok None <-> Ring.ring s = ∅) /\
  (CH.reachable hash R (.∈ names) s \/ SH.reachable hash R (.∈ names) s ->
     (Ring.nodes s = ∅ -> Ring.ring s = ∅) /\
     ((0 < R)%nat -> collision_free hash R names ->
        Ring.ring s = ∅ -> Ring.nodes s = ∅)).
Proof.
  split; [apply sh_get_node_None|]. split; [apply ch_get_node_None|].
  intros Hreach.
  assert (CH.reachable hash R (.∈ names) s) as Hs.
  { destruct Hreach as [?|?]; [done|by apply sh_reachable_ch]. }
  split.
  - apply (owned_no_nodes hash R). apply (ch_reachable_inv _ _ _ _ Hs).
  - intros HR Hcf Hempty. destruct (decide (Ring.nodes s = ∅)) as [|Hn]; [done|].
    exfalso. apply (placed_some_node hash R s HR); [|done..].
    by apply (ch_reachable_placed hash R names).
Qed.

Lemma C9_get_node_None_witness :
  let s := SH.remove_node SimpleHash.position 1 "A"
             (SH.add_node SimpleHash.position 1 "A" Ring.empty) in
  (0 < 1)%nat /\ collision_free SimpleHash.position 1 ["A"; "B"] /\
  Ring.ring s = ∅ /\ Ring.nodes s = ∅ /\
  SH.get_node SimpleHash.position s "k" = Ok None.
Proof.
  intros s.
  assert (collision_free SimpleHash.position 1 ["A"; "B"]) as Hcf by (by_evaluation).
  assert (Ring.ring s = ∅) as Hempty by (by_evaluation).
  destruct (C9_get_node_None SimpleHash.position 1 ["A"; "B"] s "k")
    as (Hsh & _ & Hreach).
  destruct Hreach as [_ Hnodes].
  { right. apply SH.reachable_remove, SH.reachable_add; [by_evaluation|constructor]. }
  split; [lia|]. split; [exact Hcf|]. split; [exact Hempty|].
  split; [apply Hnodes; [lia|exact Hcf|exact Hempty] | by apply Hsh].
Defined.

(** * The ordered sequence (C5) *)

Lemma sorted_NoDup_strict (ks : list Z) :
  Sorted Z.le ks -> NoDup ks -> StronglySorted Z.lt ks.
Proof.
  intros Hs%Sorted_le_strongly. induction Hs as [|x l Hl IH Hx]; intros Hnd.
  - constructor.
  - apply NoDup_cons in Hnd as [Hx' Hnd]. constructor; [by apply IH|].
    rewrite Forall_forall in Hx. apply Forall_forall. intros y Hy.
    specialize (Hx y Hy). assert (x <> y) by (by intros ->). lia.
Qed.

(** C5, as stated, fails when two virtual-node keys collide: with one
    virtual node per node and ["A#0"], ["B#0"] at position 5, after
    [add_node("A")] and [add_node("B")] the mapping has the single key 5,
    overwritten with B, and the sequence holds 5 twice. *)
Lemma C5_collision_duplicate :
  let s := SH.add_node colliding_hash 1 "B"
             (SH.add_node colliding_hash 1 "A" Ring.empty) in
  SH.reachable colliding_hash 1 (fun _ => True) s /\
  Ring.ring s = {[5 := "B"]} /\
  Ring.sorted_keys s = [5; 5] /\
  ~ StronglySorted Z.lt (Ring.sorted_keys s).
Proof.
  intros s. split; [repeat constructor|].
  split; [by_evaluation|]. split; [vm_compute; reflexivity|].
  by_evaluation.
Qed.

(** C5, amended: after every sequence of [add_node] and [remove_node]
    calls the ordered sequence is sorted in non-decreasing order and
    holds every key of the mapping.  When no two virtual-node keys of the
    nodes that may be added hash to the same position, then in
    simple_hashing, and in consistent_hashing as long as [add_node] is not
    called for a node that is active, the sequence is strictly increasing
    and holds exactly the keys of the mapping.  Every turn of the loop of
    [add_node] overwrites the mapping at the computed position and adds
    one entry for it to the sequence, whether the position was there or
    not. *)
Theorem C5_sorted_keys_invariant (hash : string -> Z) (R : nat)
    (names : list string) (s : Ring.state) :
  (CH.reachable hash R (.∈ names) s \/ SH.reachable hash R (.∈ names) s ->
     Sorted Z.le (Ring.sorted_keys s) /\
     dom (Ring.ring s) ⊆@{gset Z} list_to_set (Ring.sorted_keys s)) /\
  (collision_free hash R names ->
   CH.reachable_fresh hash R (.∈ names) s \/ SH.reachable hash R (.∈ names) s ->
     StronglySorted Z.lt (Ring.sorted_keys s) /\
     list_to_set (Ring.sorted_keys s) =@{gset Z} dom (Ring.ring s)) /\
  (forall node i,
     Ring.ring (Ring.place hash node s i)
       = <[hash (Ring.vnode_key node i) := node]> (Ring.ring s) /\
     Ring.sorted_keys (Ring.place hash node s i)
       ≡ₚ hash (Ring.vnode_key node i) :: Ring.sorted_keys s).
Proof.
  split; [|split].
  - intros Hreach.
    assert (CH.reachable hash R (.∈ names) s) as Hs.
    { destruct Hreach as [?|?]; [done|by apply sh_reachable_ch]. }
    apply (ch_reachable_inv _ _ _ _ Hs).
  - intros Hcf Hreach.
    assert (SH.reachable hash R (.∈ names) s) as Hs.
    { destruct Hreach as [?|?]; [by apply ch_fresh_sh|done]. }
    destruct (sh_reachable_exact hash R names s Hcf Hs) as [[Hsorted Hset] Hnd].
    split; [by apply sorted_NoDup_strict|done].
  - intros node i. split; [done|]. apply insort_Permutation.
Qed.

Lemma C5_sorted_keys_invariant_witness :
  let s := SH.add_node SimpleHash.position 2 "B"
             (SH.add_node SimpleHash.position 2 "A" Ring.empty) in
  collision_free SimpleHash.position 2 ["A"; "B"] /\
  SH.reachable SimpleHash.position 2 (.∈ ["A"; "B"]) s /\
  Sorted Z.le (Ring.sorted_keys s) /\
  StronglySorted Z.lt (Ring.sorted_keys s) /\
  list_to_set (Ring.sorted_keys s) =@{gset Z} dom (Ring.ring s).
Proof.
  intros s.
  assert (collision_free SimpleHash.position 2 ["A"; "B"]) as Hcf by (by_evaluation).
  assert (SH.reachable SimpleHash.position 2 (.∈ ["A"; "B"]) s) as Hs.
  { apply SH.reachable_add; [by_evaluation|].
    apply SH.reachable_add; [by_evaluation|constructor]. }
  destruct (C5_sorted_keys_invariant SimpleHash.position 2 ["A"; "B"] s)
    as (Hloose & Hstrict & _).
  destruct (Hloose (or_intror Hs)) as [Hsorted _].
  destruct (Hstrict Hcf (or_intror Hs)) as [Hlt Hset].
  split; [exact Hcf|]. split; [exact Hs|]. split; [exact Hsorted|].
  split; [exact Hlt|exact Hset].
Defined.

(** * remove_node on a collision (C4) *)

Lemma count_occ_discard (ks : list Z) (x q : Z) :
  Sorted Z.le ks ->
  count_occ Z.eq_dec (Ring.discard ks x) q
  = (count_occ Z.eq_dec ks q - count_occ Z.eq_dec [x] q)%nat.
Proof.
  intros Hks. destruct (decide (x ∈ ks)) as [Hx|Hx].
  - pose proof (discard_elem ks x Hks Hx) as Hperm.
    rewrite (Permutation_count_occ Z.eq_dec) in Hperm. rewrite (Hperm q).
    simpl. destruct (Z.eq_dec x q); lia.
  - rewrite discard_not_elem by done. simpl.
    destruct (Z.eq_dec x q) as [<-|]; [|lia].
    rewrite list_elem_of_In in Hx.
    apply (count_occ_not_In Z.eq_dec) in Hx. lia.
Qed.

Lemma count_occ_discard_all (ks ps : list Z) (q : Z) :
  Sorted Z.le ks ->
  count_occ Z.eq_dec (foldl Ring.discard ks ps) q
  = (count_occ Z.eq_dec ks q - count_occ Z.eq_dec ps q)%nat.
Proof.
  revert ks. induction ps as [|x ps IH]; intros ks Hks.
  - simpl. lia.
  - cbn [foldl]. rewrite IH by (by apply discard_sorted).
    rewrite count_occ_discard by done.
    change (x :: ps) with ([x] ++ ps). rewrite count_occ_app. lia.
Qed.

(** C4, as stated, fails: with one virtual node per node and ["A#0"],
    ["B#0"] at position 5, after [add_node("A")] and [add_node("B")]
    position 5 belongs to B; [remove_node("A")] deletes it from the
    mapping all the same, and pops one of its two entries from the
    sequence, in both files. *)
Lemma C4_remove_deletes_other_owner :
  let s := SH.add_node colliding_hash 1 "B"
             (SH.add_node colliding_hash 1 "A" Ring.empty) in
  ("A" ∈ Ring.nodes s) /\
  Ring.ring s !! 5 = Some "B" /\
  Ring.ring (SH.remove_node colliding_hash 1 "A" s) !! 5 = None /\
  Ring.ring (CH.remove_node colliding_hash 1 "A" s) !! 5 = None /\
  Ring.sorted_keys (SH.remove_node colliding_hash 1 "A" s) = [5].
Proof.
  intros s. split; [by_evaluation|].
  split; [vm_compute; reflexivity|]. split; [vm_compute; reflexivity|].
  split; vm_compute; reflexivity.
Qed.

(** C4, amended: for an active node of a ring whose sequence is sorted,
    [remove_node] (the same in both files) drops the node from the active
    set, deletes from the mapping every recomputed position of the node
    that is a key of it, whichever node the position is mapped to, and
    leaves the other keys as they are; from the ordered sequence it
    removes one entry per recomputed position, as long as the position
    has entries left. *)
Theorem C4_remove_node_effect (hash : string -> Z) (R : nat) (X : string)
    (s : Ring.state)
    (HX : X ∈ Ring.nodes s) (Hsorted : Sorted Z.le (Ring.sorted_keys s)) :
  SH.remove_node hash R X s = CH.remove_node hash R X s /\
  Ring.nodes (CH.remove_node hash R X s) = Ring.nodes s ∖ {[X]} /\
  (forall p,
     Ring.ring (CH.remove_node hash R X s) !! p =
       if decide (p ∈ positions hash R X) then None else Ring.ring s !! p) /\
  (forall p,
     count_occ Z.eq_dec (Ring.sorted_keys (CH.remove_node hash R X s)) p =
       (count_occ Z.eq_dec (Ring.sorted_keys s) p
        - count_occ Z.eq_dec (positions hash R X) p)%nat).
Proof.
  split; [apply sh_remove_node|]. split; [apply remove_node_nodes|].
  split.
  - intros p. by apply remove_node_ring.
  - intros p. rewrite remove_node_sorted_keys by done.
    by apply count_occ_discard_all.
Qed.

Lemma C4_remove_node_effect_witness :
  let s := SH.add_node colliding_hash 1 "B"
             (SH.add_node colliding_hash 1 "A" Ring.empty) in
  ("A" ∈ Ring.nodes s) /\ Sorted Z.le (Ring.sorted_keys s) /\
  Ring.nodes (CH.remove_node colliding_hash 1 "A" s) = Ring.nodes s ∖ {["A"]} /\
  Ring.ring (CH.remove_node colliding_hash 1 "A" s) !! 5 = None.
Proof.
  intros s.
  assert ("A" ∈ Ring.nodes s) as HX by (by_evaluation).
  assert (Sorted Z.le (Ring.sorted_keys s)) as Hsorted by (by_evaluation).
  destruct (C4_remove_node_effect colliding_hash 1 "A" s HX Hsorted)
    as (_ & Hnodes & Hring & _).
  split; [exact HX|]. split; [exact Hsorted|]. split; [exact Hnodes|].
  rewrite Hring. reflexivity.
Defined.

(** * StorageService.remove_node_safe (C10) *)

Section StorageFacts.
Import Ring.
Variable hash : string -> Z.
Variable R : nat.
Context {V : Type}.
Implicit Types stg : gmap (option string) (gmap string V).
Implicit Types data : gmap string V.

(** One turn of the loop, when [get_node] returns. *)
Lemma move_returns r key value stg o :
  SH.get_node hash r key = Ok o ->
  StorageService.move hash r key value stg
  = Ok (<[o := <[key := value]> (default ∅ (stg !! o))]> stg).
Proof.
  intros Hget. unfold StorageService.move. rewrite Hget. simpl.
  case_decide as Ho.
  - destruct Ho as [d Hd]. by rewrite Hd.
  - apply eq_None_not_Some in Ho. rewrite lookup_insert_eq, Ho. simpl.
    by rewrite insert_insert_eq.
Qed.

(** On a ring whose sequence holds the keys of the mapping, [get_node]
    returns. *)
Lemma sh_get_node_returns r key :
  well_formed r ->
  exists o, SH.get_node hash r key = Ok o /\
    forall n, o = Some n -> exists p, ring r !! p = Some n.
Proof.
  intros Hwf. destruct (decide (ring r = ∅)) as [He|Hne].
  - exists None. split; [by apply sh_get_node_empty|done].
  - destruct (sh_get_node_policy_B hash r key Hwf Hne) as (n & Hget & Hn).
    exists (Some n). split; [done|]. intros n' [= <-].
    by eapply successor_B_mapped.
Qed.

Lemma loop_moved r storage0 data :
  well_formed r ->
  moved hash r storage0
    (map_fold (fun key value acc => stg ← acc; StorageService.move hash r key value stg)
       (Ok storage0) data)
    data.
Proof.
  intros Hwf. apply (map_fold_weak_ind (moved hash r storage0)).
  - exists storage0. split; [done|]. split; [done|]. eauto.
  - intros k0 v0 m res Hfresh (stg & -> & Hmoved & Hkept).
    destruct (sh_get_node_returns r k0 Hwf) as (o0 & Hget & _).
    simpl. rewrite (move_returns r k0 v0 stg o0 Hget).
    eexists. split; [done|]. split.
    + intros k v Hk. destruct (decide (k = k0)) as [->|Hne].
      * rewrite lookup_insert_eq in Hk. injection Hk as <-.
        exists o0. eexists. split; [done|].
        split; [apply lookup_insert_eq|apply lookup_insert_eq].
      * rewrite lookup_insert_ne in Hk by done.
        destruct (Hmoved k v Hk) as (o & d & Hgo & Ho & Hd).
        exists o. destruct (decide (o = o0)) as [->|Hoo].
        -- eexists. split; [done|]. split; [apply lookup_insert_eq|].
           rewrite Ho. simpl. by rewrite lookup_insert_ne.
        -- exists d. split; [done|]. split; [|done].
           by rewrite lookup_insert_ne.
    + intros m' d k w Hm' Hw. destruct (Hkept m' d k w Hm' Hw) as (d' & Hd' & Hcase).
      destruct (decide (m' = o0)) as [->|Hmo].
      * eexists. split; [apply lookup_insert_eq|]. rewrite Hd'. simpl.
        destruct (decide (k = k0)) as [->|Hne].
        -- right. exists v0. rewrite !lookup_insert_eq. done.
        -- rewrite !lookup_insert_ne by done.
           destruct Hcase as [?|(v & ? & ? & ?)]; [by left|right; eauto].
      * exists d'. split; [by rewrite lookup_insert_ne|].
        destruct Hcase as [?|(v & Hv & Hgo & Hdv)]; [by left|].
        right. exists v. split; [|done].
        rewrite lookup_insert_ne; [done|]. intros <-. by rewrite Hfresh in Hv.
Qed.

End StorageFacts.


(** C10, as stated, fails in two ways.

    On the pairs stored under other nodes.  On the service's ring (MD5,
    100 virtual nodes per node): with Node_A alone in the ring,
    [write("banana", "old")] stores the pair under Node_A; after
    [add_node("Node_B")] the key belongs to Node_B, and
    [write("banana", "new")] stores a second pair there.  Node_B is then
    in the ring and in the storage, and [remove_node_safe("Node_B")]
    moves its pair to Node_A, where it replaces the pair
    ("banana", "old").

    On a ring that breaks the invariants.  With two virtual nodes per
    node and ["A#0"], ["B#0"] at one position, after [add_node("A")] and
    [add_node("B")] the removal of A leaves the shared position in the
    sequence but not in the mapping, and the [get_node] of the first pair
    to move raises [KeyError]: [remove_node_safe("A")] does not return. *)
Lemma C10_remove_node_safe_fails :
  (let st0 : StorageService.t string :=
     {| StorageService.ring :=
          SH.add_node SimpleHash.position 100 "Node_A" Ring.empty;
        StorageService.storage := StorageService.storage StorageService.init |} in
   st1 ← StorageService.write SimpleHash.position "banana" "old" st0;
   st2 ← StorageService.write SimpleHash.position "banana" "new"
           {| StorageService.ring :=
                SH.add_node SimpleHash.position 100 "Node_B" (StorageService.ring st1);
              StorageService.storage := StorageService.storage st1 |};
   st3 ← StorageService.remove_node_safe SimpleHash.position 100 "Node_B" st2;
   Ok (bool_decide ("Node_B" ∈ Ring.nodes (StorageService.ring st2)),
       StorageService.storage st2 !! Some "Node_B",
       StorageService.storage st2 !! Some "Node_A",
       StorageService.storage st3 !! Some "Node_A"))
  = Ok (true,
        Some {[ "banana" := "new" ]},
        Some {[ "banana" := "old" ]},
        Some {[ "banana" := "new" ]})
  /\
  (let st : StorageService.t string :=
     {| StorageService.ring :=
          SH.add_node colliding_hash 2 "B"
            (SH.add_node colliding_hash 2 "A" Ring.empty);
        StorageService.storage :=
          {[ Some "A" := {[ "k" := "v" ]}; Some "B" := ∅ ]} |} in
   ("A" ∈ Ring.nodes (StorageService.ring st)) /\
   StorageService.storage st !! Some "A" = Some {[ "k" := "v" ]} /\
   StorageService.remove_node_safe colliding_hash 2 "A" st = Raise KeyError).
Proof.
  split; [vm_compute; reflexivity|].
  intros st. split; [by_evaluation|]. split; vm_compute; reflexivity.
Qed.

(** C10, amended: for every StorageService state whose ring satisfies the
    data model's invariants (the sequence sorted, without duplicates and
    holding exactly the keys of the mapping; every mapped position a
    virtual node of an active node) and every node [n] present in both
    the storage map and the ring, [remove_node_safe(n)] returns; after
    it [n] is not in the ring's active set, [n]'s store is deleted from
    the storage map, every key/value pair that was stored under [n] is
    stored under the node [get_node(key)] returns on the ring after the
    removal, and every key/value pair stored under another node is still
    stored there, unless a pair moved to that node has the same key and
    has replaced it. *)
Theorem C10_remove_node_safe (hash : string -> Z) (R : nat) {V : Type}
    (st : StorageService.t V) (n : string) (data : gmap string V)
    (Hexact : exact (StorageService.ring st))
    (Howned : owned hash R (StorageService.ring st))
    (Hn : n ∈ Ring.nodes (StorageService.ring st))
    (Hdata : StorageService.storage st !! Some n = Some data) :
  exists st',
    StorageService.remove_node_safe hash R n st = Ok st' /\
    StorageService.ring st' = SH.remove_node hash R n (StorageService.ring st) /\
    (n ∉ Ring.nodes (StorageService.ring st')) /\
    StorageService.storage st' !! Some n = None /\
    (forall k v, data !! k = Some v ->
       exists o d, SH.get_node hash (StorageService.ring st') k = Ok o /\
                   StorageService.storage st' !! o = Some d /\ d !! k = Some v) /\
    (forall m d k w,
       m <> Some n -> StorageService.storage st !! m = Some d -> d !! k = Some w ->
       exists d', StorageService.storage st' !! m = Some d' /\
         (d' !! k = Some w \/
          exists v, data !! k = Some v /\
                    SH.get_node hash (StorageService.ring st') k = Ok m /\
                    d' !! k = Some v)).
Proof.
  unfold StorageService.remove_node_safe. rewrite Hdata.
  set (r := SH.remove_node hash R n (StorageService.ring st)).
  assert (exact r) as [Hwf _].
  { unfold r. rewrite sh_remove_node. by apply remove_node_exact. }
  assert (owned hash R r) as Ho.
  { unfold r. rewrite sh_remove_node. by apply remove_node_owned. }
  assert (n ∉ Ring.nodes r) as Hgone.
  { unfold r. rewrite sh_remove_node, remove_node_nodes. set_solver. }
  destruct (loop_moved hash r (StorageService.storage st) data Hwf)
    as (stg & -> & Hmoved & Hkept).
  eexists. split; [done|]. simpl. split; [done|]. split; [done|].
  split; [apply lookup_delete_eq|]. split.
  - intros k v Hk. destruct (Hmoved k v Hk) as (o & d & Hget & Hstg & Hd).
    exists o, d. split; [done|]. split; [|done].
    rewrite lookup_delete_ne; [done|]. intros <-.
    destruct (sh_get_node_returns hash r k Hwf) as (o' & Hget' & Hmapped).
    rewrite Hget in Hget'. apply Ok_inj in Hget'. subst o'.
    destruct (Hmapped n eq_refl) as [p Hp].
    by apply (map_Forall_lookup_1 _ _ _ _ Ho) in Hp as [? _].
  - intros m d k w Hm Hd Hw. destruct (Hkept m d k w Hd Hw) as (d' & Hd' & Hcase).
    exists d'. split; [|done]. by rewrite lookup_delete_ne.
Qed.

Lemma C10_remove_node_safe_witness :
  let st : StorageService.t Z :=
    {| StorageService.ring :=
         SH.add_node SimpleHash.position 2 "Node_B"
           (SH.add_node SimpleHash.position 2 "Node_A" Ring.empty);
       StorageService.storage :=
         {[ Some "Node_A" := {[ "apple" := 1 ]};
            Some "Node_B" := {[ "banana" := 2 ]} ]} |} in
  exact (StorageService.ring st) /\
  owned SimpleHash.position 2 (StorageService.ring st) /\
  ("Node_B" ∈ Ring.nodes (StorageService.ring st)) /\
  StorageService.storage st !! Some "Node_B" = Some {[ "banana" := 2 ]} /\
  exists st',
    StorageService.remove_node_safe SimpleHash.position 2 "Node_B" st = Ok st' /\
    ("Node_B" ∉ Ring.nodes (StorageService.ring st')) /\
    StorageService.storage st' !! Some "Node_B" = None.
Proof.
  intros st.
  assert (exact (StorageService.ring st)) as Hexact by (by_evaluation).
  assert (owned SimpleHash.position 2 (StorageService.ring st)) as Howned
    by (by_evaluation).
  assert ("Node_B" ∈ Ring.nodes (StorageService.ring st)) as Hn by (by_evaluation).
  assert (StorageService.storage st !! Some "Node_B" = Some {[ "banana" := 2 ]})
    as Hdata by (vm_compute; reflexivity).
  split; [exact Hexact|]. split; [exact Howned|]. split; [exact Hn|].
  split; [exact Hdata|].
  destruct (C10_remove_node_safe SimpleHash.position 2 st "Node_B"
              {[ "banana" := 2 ]} Hexact Howned Hn Hdata)
    as (st' & Hret & _ & Hgone & Hdel & _).
  exists st'. split; [exact Hret|]. split; [exact Hgone|exact Hdel].
Defined.

(** * Collisions exist

    The hashers of the two files map infinitely many strings into a
    finite range, so two node names with colliding virtual-node keys
    exist for each of them, and the states the collision lemmas above
    exhibit with [colliding_hash] are reached with [HashFunction.hash] and
    [_hash] as well. *)

Lemma pigeonhole (n : nat) (f : nat -> nat) :
  (forall i, (i <= n)%nat -> (f i < n)%nat) ->
  exists i j, (i < j <= n)%nat /\ f i = f j.
Proof.
  revert f. induction n as [|n IH]; intros f Hf.
  - specialize (Hf 0%nat). lia.
  - assert ((exists i, (i <= n)%nat /\ f i = f (S n)) \/
            (forall i, (i <= n)%nat -> f i <> f (S n))) as [(i & Hi & Heq)|Hne].
    { generalize (f (S n)) as v. intros v. clear IH Hf.
      induction n as [|n IHn].
      - destruct (decide (f 0%nat = v)) as [Heq|Hne].
        + left. exists 0%nat. split; [lia|done].
        + right. intros i Hi. by assert (i = 0%nat) as -> by lia.
      - destruct IHn as [(i & Hi & Heq)|Hne].
        + left. exists i. split; [lia|done].
        + destruct (decide (f (S n) = v)) as [Heq|Hne'].
          * left. exists (S n). split; [lia|done].
          * right. intros i Hi. destruct (decide (i = S n)) as [->|Hi']; [done|].
            apply Hne. lia. }
    + exists i, (S n). split; [lia|done].
    + destruct (IH (fun i => if decide (f i < f (S n))%nat then f i else pred (f i)))
        as (i & j & Hij & Hg).
      { intros i Hi. specialize (Hne i Hi). pose proof (Hf i). pose proof (Hf (S n)).
        case_decide; lia. }
      exists i, j. split; [lia|]. simpl in Hg.
      pose proof (Hne i). pose proof (Hne j). repeat case_decide; lia.
Qed.

Lemma unary_name_length i : String.length (unary_name i) = i.
Proof. induction i; simpl; congruence. Qed.

Lemma collision_exists (hash : string -> Z) (M : Z) :
  (forall key, 0 <= hash key < M) ->
  exists X Y, X <> Y /\ hash (Ring.vnode_key X 0) = hash (Ring.vnode_key Y 0).
Proof.
  intros Hrange.
  destruct (pigeonhole (Z.to_nat M)
              (fun i => Z.to_nat (hash (Ring.vnode_key (unary_name i) 0))))
    as (i & j & Hij & Heq).
  - intros i _. pose proof (Hrange (Ring.vnode_key (unary_name i) 0)).
    apply Z2Nat.inj_lt; lia.
  - exists (unary_name i), (unary_name j). split.
    + intros Hname. apply (f_equal String.length) in Hname.
      rewrite !unary_name_length in Hname. lia.
    + pose proof (Hrange (Ring.vnode_key (unary_name i) 0)).
      pose proof (Hrange (Ring.vnode_key (unary_name j) 0)).
      apply Z2Nat.inj; lia.
Qed.

(** What a collision between the first virtual nodes of two nodes does to
    a ring of one virtual node per node. *)
Lemma collision_effects (hash : string -> Z) (X Y : string) :
  X <> Y -> hash (Ring.vnode_key X 0) = hash (Ring.vnode_key Y 0) ->
  let s2 := CH.add_node hash 1 Y (CH.add_node hash 1 X Ring.empty) in
  let s3 := CH.remove_node hash 1 X s2 in
  CH.reachable_fresh hash 1 (fun _ => True) s3 /\
  Ring.ring s2 !! hash (Ring.vnode_key Y 0) = Some Y /\
  ~ NoDup (Ring.sorted_keys s2) /\
  Ring.nodes s3 = {[Y]} /\
  Ring.ring s3 = ∅.
Proof.
  intros Hne Hcol s2 s3.
  assert (X ∈ Ring.nodes s2) as HX.
  { unfold s2. rewrite !add_node_nodes. set_solver. }
  split; [|split; [|split; [|split]]].
  - apply CH.fresh_remove, CH.fresh_add; [done| |].
    + rewrite add_node_nodes. set_solver.
    + apply CH.fresh_add; [done|set_solver|constructor].
  - unfold s2. rewrite add_node_ring. rewrite decide_True; [done|]. by left.
  - unfold s2. rewrite !add_node_sorted_keys.
    change (positions hash 1 X) with [hash (Ring.vnode_key X 0)].
    change (positions hash 1 Y) with [hash (Ring.vnode_key Y 0)].
    rewrite Hcol. simpl. intros Hnd. apply NoDup_cons in Hnd as [Hnin _].
    apply Hnin. by left.
  - unfold s3. rewrite remove_node_nodes. unfold s2. rewrite !add_node_nodes.
    set_solver.
  - apply map_eq. intros p. unfold s3. rewrite remove_node_ring by done.
    unfold s2. rewrite !add_node_ring, lookup_empty.
    change (positions hash 1 X) with [hash (Ring.vnode_key X 0)].
    change (positions hash 1 Y) with [hash (Ring.vnode_key Y 0)].
    rewrite Hcol. by repeat case_decide.
Qed.

(** With the hashers of the two files: there are two node names after
    whose [add_node], [add_node], [remove_node] one node is active and
    [get_node] answers [None]. *)
Lemma collision_reached :
  (exists X Y key,
     let s := CH.remove_node HashFunction.position 1 X
                (CH.add_node HashFunction.position 1 Y
                   (CH.add_node HashFunction.position 1 X Ring.empty)) in
     Ring.nodes s = {[Y]} /\ CH.get_node HashFunction.position s key = Ok None) /\
  (exists X Y key,
     let s := SH.remove_node SimpleHash.position 1 X
                (SH.add_node SimpleHash.position 1 Y
                   (SH.add_node SimpleHash.position 1 X Ring.empty)) in
     Ring.nodes s = {[Y]} /\ SH.get_node SimpleHash.position s key = Ok None).
Proof.
  split.
  - destruct (collision_exists HashFunction.position (2 ^ 64) hash_position_range)
      as (X & Y & Hne & Hcol).
    destruct (collision_effects HashFunction.position X Y Hne Hcol)
      as (_ & _ & _ & Hnodes & Hempty).
    exists X, Y, "k". split; [done|]. by apply ch_get_node_empty.
  - destruct (collision_exists SimpleHash.position (2 ^ 128) _hash_position_range)
      as (X & Y & Hne & Hcol).
    destruct (collision_effects SimpleHash.position X Y Hne Hcol)
      as (_ & _ & _ & Hnodes & Hempty).
    exists X, Y, "k".
    assert (SH.add_node SimpleHash.position 1 Y
              (SH.add_node SimpleHash.position 1 X Ring.empty)
            = CH.add_node SimpleHash.position 1 Y
                (CH.add_node SimpleHash.position 1 X Ring.empty)) as ->.
    { rewrite (sh_add_node _ _ X). rewrite decide_False by set_solver.
      rewrite sh_add_node. rewrite decide_False; [done|].
      rewrite add_node_nodes. set_solver. }
    rewrite sh_remove_node. split; [done|]. by apply sh_get_node_empty.
Qed.

(** The state consistent_hashing reaches, without any collision, when
    [add_node] is called twice for a node that is then removed: the
    second copies of the node's positions stay in the sequence, and a
    lookup that lands on one raises [KeyError] while another node is
    active. *)
Lemma ch_add_twice_then_KeyError :
  let s := CH.remove_node HashFunction.position 1 "A"
             (CH.add_node HashFunction.position 1 "B"
                (CH.add_node HashFunction.position 1 "A"
                   (CH.add_node HashFunction.position 1 "A" Ring.empty))) in
  Ring.nodes s = {["B"]} /\
  Ring.sorted_keys s = [2540805760424024442; 4999980548281958909] /\
  Ring.ring s = {[ 4999980548281958909 := "B" ]} /\
  CH.get_node HashFunction.position s "A#0" = Raise KeyError.
Proof.
  intros s. split; [vm_compute; reflexivity|]. split; [vm_compute; reflexivity|].
  split; [by_evaluation|vm_compute; reflexivity].
Qed.

(** The same failure with the hasher of consistent_hashing, after a
    repeated [add_node]: the second copy of A's position stays in the
    sequence below B's, and ["key_0"], which hashes above both, wraps to
    it. *)
Lemma ch_add_twice_wrap_KeyError :
  let s := CH.remove_node HashFunction.position 1 "A"
             (CH.add_node HashFunction.position 1 "B"
                (CH.add_node HashFunction.position 1 "A"
                   (CH.add_node HashFunction.position 1 "A" Ring.empty))) in
  CH.reachable HashFunction.position 1 (fun _ => True) s /\
  Ring.nodes s = {["B"]} /\
  Ring.ring s = {[ 4999980548281958909 := "B" ]} /\
  Ring.sorted_keys s = [2540805760424024442; 4999980548281958909] /\
  HashFunction.position "key_0" = 16355673393867691659 /\
  CH.get_node HashFunction.position s "key_0" = Raise KeyError.
Proof.
  intros s. split; [repeat constructor|].
  split; [vm_compute; reflexivity|]. split; [by_evaluation|].
  split; [vm_compute; reflexivity|]. split; vm_compute; reflexivity.
Qed.


(** * Owners across topology changes *)

Section SuccessorFacts.
Import Ring.
Implicit Types s : state.

Lemma successor_A_unique s h n n' :
  successor_A s h n -> successor_A s h n' -> n = n'.
Proof.
  intros [(p & Hp & Hle & Hmin)|[Hall (p & Hp & Hmin)]]
         [(p' & Hp' & Hle' & Hmin')|[Hall' (p' & Hp' & Hmin')]].
  - assert (p = p') as <-; [|congruence].
    apply Z.le_antisymm; [apply Hmin|apply Hmin']; by eauto.
  - specialize (Hall' p (ltac:(by eexists))). lia.
  - specialize (Hall p' (ltac:(by eexists))). lia.
  - assert (p = p') as <-; [|congruence].
    apply Z.le_antisymm; [apply Hmin|apply Hmin']; by eauto.
Qed.

Lemma successor_B_unique s h n n' :
  successor_B s h n -> successor_B s h n' -> n = n'.
Proof.
  intros [(p & Hp & Hle & Hmin)|[Hall (p & Hp & Hmin)]]
         [(p' & Hp' & Hle' & Hmin')|[Hall' (p' & Hp' & Hmin')]].
  - assert (p = p') as <-; [|congruence].
    apply Z.le_antisymm; [apply Hmin|apply Hmin']; by eauto.
  - specialize (Hall' p (ltac:(by eexists))). lia.
  - specialize (Hall p' (ltac:(by eexists))). lia.
  - assert (p = p') as <-; [|congruence].
    apply Z.le_antisymm; [apply Hmin|apply Hmin']; by eauto.
Qed.

(** The owner of a key is kept when positions are taken away, as long as
    the owner keeps all of its own. *)
Lemma successor_A_shrink s s' h n :
  (forall q m, ring s' !! q = Some m -> ring s !! q = Some m) ->
  (forall p, ring s !! p = Some n -> ring s' !! p = Some n) ->
  successor_A s h n -> successor_A s' h n.
Proof.
  intros Hsub Hkeep [(p & Hp & Hle & Hmin)|[Hall (p & Hp & Hmin)]].
  - left. exists p. split; [auto|]. split; [done|].
    intros q [m Hq] Hhq. apply Hmin; [|done]. eauto.
  - right. split.
    + intros q [m Hq]. apply Hall. eauto.
    + exists p. split; [auto|]. intros q [m Hq]. apply Hmin. eauto.
Qed.

Lemma successor_B_shrink s s' h n :
  (forall q m, ring s' !! q = Some m -> ring s !! q = Some m) ->
  (forall p, ring s !! p = Some n -> ring s' !! p = Some n) ->
  successor_B s h n -> successor_B s' h n.
Proof.
  intros Hsub Hkeep [(p & Hp & Hle & Hmin)|[Hall (p & Hp & Hmin)]].
  - left. exists p. split; [auto|]. split; [done|].
    intros q [m Hq] Hhq. apply Hmin; [|done]. eauto.
  - right. split.
    + intros q [m Hq]. apply Hall. eauto.
    + exists p. split; [auto|]. intros q [m Hq]. apply Hmin. eauto.
Qed.

(** The owner of a key in a ring to which positions were added, when it
    is not one of the nodes placed there, was the owner before. *)
Lemma successor_A_grow s s' h n :
  (forall q, is_Some (ring s !! q) -> is_Some (ring s' !! q)) ->
  (forall p, ring s' !! p = Some n -> ring s !! p = Some n) ->
  successor_A s' h n -> successor_A s h n.
Proof.
  intros Hsub Hold [(p & Hp & Hle & Hmin)|[Hall (p & Hp & Hmin)]].
  - left. exists p. split; [auto|]. split; [done|].
    intros q Hq Hhq. apply Hmin; [|done]. eauto.
  - right. split.
    + intros q Hq. apply Hall. eauto.
    + exists p. split; [auto|]. intros q Hq. apply Hmin. eauto.
Qed.

Lemma successor_B_grow s s' h n :
  (forall q, is_Some (ring s !! q) -> is_Some (ring s' !! q)) ->
  (forall p, ring s' !! p = Some n -> ring s !! p = Some n) ->
  successor_B s' h n -> successor_B s h n.
Proof.
  intros Hsub Hold [(p & Hp & Hle & Hmin)|[Hall (p & Hp & Hmin)]].
  - left. exists p. split; [auto|]. split; [done|].
    intros q Hq Hhq. apply Hmin; [|done]. eauto.
  - right. split.
    + intros q Hq. apply Hall. eauto.
    + exists p. split; [auto|]. intros q Hq. apply Hmin. eauto.
Qed.

Variable hash : string -> Z.
Variable R : nat.

Lemma ch_get_node_Some s key n :
  well_formed s -> CH.get_node hash s key = Ok (Some n) ->
  Ring.ring s <> ∅ /\ successor_A s (hash key) n.
Proof.
  intros Hwf Hget. destruct (decide (ring s = ∅)) as [He|Hne].
  - by rewrite (ch_get_node_empty hash s key He) in Hget.
  - split; [done|].
    destruct (ch_get_node_policy_A hash s key Hwf Hne) as (n' & Hget' & Hn').
    rewrite Hget in Hget'. apply Ok_inj, (inj Some) in Hget'. by subst.
Qed.

Lemma sh_get_node_Some s key n :
  well_formed s -> SH.get_node hash s key = Ok (Some n) ->
  Ring.ring s <> ∅ /\ successor_B s (hash key) n.
Proof.
  intros Hwf Hget. destruct (decide (ring s = ∅)) as [He|Hne].
  - by rewrite (sh_get_node_empty hash s key He) in Hget.
  - split; [done|].
    destruct (sh_get_node_policy_B hash s key Hwf Hne) as (n' & Hget' & Hn').
    rewrite Hget in Hget'. apply Ok_inj, (inj Some) in Hget'. by subst.
Qed.

Lemma ch_successor_get_node s key n :
  well_formed s -> successor_A s (hash key) n -> CH.get_node hash s key = Ok (Some n).
Proof.
  intros Hwf Hn. assert (ring s <> ∅) as Hne.
  { destruct (successor_A_mapped s _ n Hn) as [p Hp]. intros He.
    by rewrite He, lookup_empty in Hp. }
  destruct (ch_get_node_policy_A hash s key Hwf Hne) as (n' & Hget' & Hn').
  by rewrite (successor_A_unique s _ n n' Hn Hn').
Qed.

Lemma sh_successor_get_node s key n :
  well_formed s -> successor_B s (hash key) n -> SH.get_node hash s key = Ok (Some n).
Proof.
  intros Hwf Hn. assert (ring s <> ∅) as Hne.
  { destruct (successor_B_mapped s _ n Hn) as [p Hp]. intros He.
    by rewrite He, lookup_empty in Hp. }
  destruct (sh_get_node_policy_B hash s key Hwf Hne) as (n' & Hget' & Hn').
  by rewrite (successor_B_unique s _ n n' Hn Hn').
Qed.

Lemma owner_at_mapped_any s idx n :
  owner_at s idx = Ok (Some n) -> exists p, ring s !! p = Some n.
Proof.
  unfold owner_at. destruct (sorted_keys s !! idx) as [p|]; [|done].
  destruct (ring s !! p) as [m|] eqn:Hm; [|done].
  intros Heq. apply Ok_inj, (inj Some) in Heq. subst m. eauto.
Qed.

Lemma sh_get_node_mapped s k n :
  SH.get_node hash s k = Ok (Some n) -> exists p, ring s !! p = Some n.
Proof.
  unfold SH.get_node. case_decide; [done|]. apply owner_at_mapped_any.
Qed.

Lemma ch_get_node_mapped s k n :
  CH.get_node hash s k = Ok (Some n) -> exists p, ring s !! p = Some n.
Proof.
  unfold CH.get_node. case_decide; [done|]. apply owner_at_mapped_any.
Qed.

Lemma ch_get_node_returns s key :
  well_formed s -> exists o, CH.get_node hash s key = Ok o.
Proof.
  intros Hwf. destruct (decide (ring s = ∅)) as [He|Hne].
  - exists None. by apply ch_get_node_empty.
  - destruct (ch_get_node_policy_A hash s key Hwf Hne) as (n & Hget & _). eauto.
Qed.

(** What [remove_node] leaves of the mapping. *)
Lemma remove_node_submap X s q m :
  ring (CH.remove_node hash R X s) !! q = Some m -> ring s !! q = Some m.
Proof.
  destruct (decide (X ∈ nodes s)) as [HX|HX]; [|by rewrite remove_node_absent].
  rewrite remove_node_ring by done. by case_decide.
Qed.

Lemma remove_node_keeps X s p n :
  map_Forall (fun p m => p ∈ positions hash R X -> m = X) (ring s) ->
  n <> X -> ring s !! p = Some n ->
  ring (CH.remove_node hash R X s) !! p = Some n.
Proof.
  rewrite map_Forall_lookup. intros Hmine Hn Hp.
  destruct (decide (X ∈ nodes s)) as [HX|HX]; [|by rewrite remove_node_absent].
  rewrite remove_node_ring by done. rewrite decide_False; [done|].
  intros Hin. by apply Hn, (Hmine p n Hp).
Qed.

Lemma remove_node_empty X s : ring s = ∅ -> ring (CH.remove_node hash R X s) = ∅.
Proof.
  intros He. apply map_empty. intros q.
  destruct (ring (CH.remove_node hash R X s) !! q) as [m|] eqn:Hq; [|done].
  apply remove_node_submap in Hq. by rewrite He, lookup_empty in Hq.
Qed.

Lemma ch_remove_node_get_node_other X s key o :
  exact s ->
  map_Forall (fun p m => p ∈ positions hash R X -> m = X) (ring s) ->
  o <> Some X ->
  CH.get_node hash s key = Ok o ->
  CH.get_node hash (CH.remove_node hash R X s) key = Ok o.
Proof.
  intros Hexact Hmine Ho Hget.
  assert (well_formed (CH.remove_node hash R X s)) as Hwf'
    by (by apply remove_node_exact).
  destruct Hexact as [Hwf _]. destruct o as [n|].
  - assert (n <> X) as Hn by congruence.
    apply ch_get_node_Some in Hget as [_ Hsucc]; [|done].
    apply ch_successor_get_node; [done|].
    eapply successor_A_shrink; [apply remove_node_submap| |done].
    intros p Hp. by apply remove_node_keeps.
  - apply ch_get_node_None in Hget. by apply ch_get_node_empty, remove_node_empty.
Qed.

Lemma sh_remove_node_get_node_other X s key o :
  exact s ->
  map_Forall (fun p m => p ∈ positions hash R X -> m = X) (ring s) ->
  o <> Some X ->
  SH.get_node hash s key = Ok o ->
  SH.get_node hash (SH.remove_node hash R X s) key = Ok o.
Proof.
  intros Hexact Hmine Ho Hget.
  change (SH.remove_node hash R X s) with (CH.remove_node hash R X s).
  assert (well_formed (CH.remove_node hash R X s)) as Hwf'
    by (by apply remove_node_exact).
  destruct Hexact as [Hwf _]. destruct o as [n|].
  - assert (n <> X) as Hn by congruence.
    apply sh_get_node_Some in Hget as [_ Hsucc]; [|done].
    apply sh_successor_get_node; [done|].
    eapply successor_B_shrink; [apply remove_node_submap| |done].
    intros p Hp. by apply remove_node_keeps.
  - apply sh_get_node_None in Hget. by apply sh_get_node_empty, remove_node_empty.
Qed.

Lemma removed_not_owner s n k :
  owned hash R s ->
  SH.get_node hash (SH.remove_node hash R n s) k <> Ok (Some n).
Proof.
  intros Ho Hget.
  change (SH.remove_node hash R n s) with (CH.remove_node hash R n s) in Hget.
  assert (owned hash R (CH.remove_node hash R n s)) as Ho'
    by (by apply remove_node_owned).
  apply sh_get_node_mapped in Hget as [p Hp].
  apply (map_Forall_lookup_1 _ _ _ _ Ho') in Hp as [Hin _].
  rewrite remove_node_nodes in Hin. set_solver.
Qed.

End SuccessorFacts.

(** X1: removing a node moves only the keys of that node.  On a ring
    that satisfies I2 and on which the positions of [X] are mapped to no
    other node, a key that [get_node] gives to a node other than [X] is
    given to the same node after [remove_node(X)], in both files. *)
Theorem remove_node_keeps_other_owners (hash : string -> Z) (R : nat)
    (X : string) (s : Ring.state) (key : string) (n : string)
    (Hexact : exact s)
    (Hmine : map_Forall (fun p m => p ∈ positions hash R X -> m = X) (Ring.ring s))
    (Hn : n <> X) :
  (CH.get_node hash s key = Ok (Some n) ->
   CH.get_node hash (CH.remove_node hash R X s) key = Ok (Some n)) /\
  (SH.get_node hash s key = Ok (Some n) ->
   SH.get_node hash (SH.remove_node hash R X s) key = Ok (Some n)).
Proof.
  split; intros Hget.
  - apply ch_remove_node_get_node_other; [done|done|congruence|done].
  - apply sh_remove_node_get_node_other; [done|done|congruence|done].
Qed.

Lemma remove_node_keeps_other_owners_witness :
  let s := CH.add_node HashFunction.position 2 "C"
             (CH.add_node HashFunction.position 2 "B"
                (CH.add_node HashFunction.position 2 "A" Ring.empty)) in
  exact s /\
  map_Forall (fun p m => p ∈ positions HashFunction.position 2 "C" -> m = "C")
    (Ring.ring s) /\
  "A" <> "C" /\
  CH.get_node HashFunction.position s "k" = Ok (Some "A") /\
  SH.get_node HashFunction.position s "k" = Ok (Some "A") /\
  CH.get_node HashFunction.position
    (CH.remove_node HashFunction.position 2 "C" s) "k" = Ok (Some "A") /\
  SH.get_node HashFunction.position
    (SH.remove_node HashFunction.position 2 "C" s) "k" = Ok (Some "A").
Proof.
  intros s.
  assert (exact s) as Hexact by (by_evaluation).
  assert (map_Forall (fun p m => p ∈ positions HashFunction.position 2 "C" -> m = "C")
            (Ring.ring s)) as Hmine by (by_evaluation).
  assert ("A" <> "C") as Hn by (by_evaluation).
  assert (CH.get_node HashFunction.position s "k" = Ok (Some "A")) as Hch
    by (vm_compute; reflexivity).
  assert (SH.get_node HashFunction.position s "k" = Ok (Some "A")) as Hsh
    by (vm_compute; reflexivity).
  split; [exact Hexact|]. split; [exact Hmine|]. split; [exact Hn|].
  split; [exact Hch|]. split; [exact Hsh|].
  split.
  - exact (proj1 (remove_node_keeps_other_owners HashFunction.position 2 "C" s "k" "A"
                    Hexact Hmine Hn) Hch).
  - exact (proj2 (remove_node_keeps_other_owners HashFunction.position 2 "C" s "k" "A"
                    Hexact Hmine Hn) Hsh).
Defined.

(** X2: adding a node moves keys to that node only.  On a ring whose
    sequence is sorted and holds the keys of the mapping, a key that
    [get_node] gives to a node other than [X] after [add_node(X)] was
    given to that node before, in both files. *)
Theorem add_node_moves_to_new_node (hash : string -> Z) (R : nat)
    (X : string) (s : Ring.state) (key : string) (n : string)
    (Hwf : well_formed s) (Hn : n <> X) :
  (CH.get_node hash (CH.add_node hash R X s) key = Ok (Some n) ->
   CH.get_node hash s key = Ok (Some n)) /\
  (SH.get_node hash (SH.add_node hash R X s) key = Ok (Some n) ->
   SH.get_node hash s key = Ok (Some n)).
Proof.
  assert (well_formed (CH.add_node hash R X s)) as Hwf'
    by (by apply add_node_well_formed).
  assert (forall q, is_Some (Ring.ring s !! q) ->
                    is_Some (Ring.ring (CH.add_node hash R X s) !! q)) as Hsub.
  { intros q Hq. rewrite add_node_ring. by case_decide. }
  assert (forall p, Ring.ring (CH.add_node hash R X s) !! p = Some n ->
                    Ring.ring s !! p = Some n) as Hold.
  { intros p. rewrite add_node_ring. case_decide; [|done]. by intros [= ->]. }
  split; intros Hget.
  - apply ch_get_node_Some in Hget as [_ Hsucc]; [|done].
    apply ch_successor_get_node; [done|]. by eapply successor_A_grow.
  - rewrite sh_add_node in Hget. case_decide; [done|].
    apply sh_get_node_Some in Hget as [_ Hsucc]; [|done].
    apply sh_successor_get_node; [done|]. by eapply successor_B_grow.
Qed.

Lemma add_node_moves_to_new_node_witness :
  let s := CH.add_node HashFunction.position 2 "B"
             (CH.add_node HashFunction.position 2 "A" Ring.empty) in
  well_formed s /\ "A" <> "C" /\
  CH.get_node HashFunction.position
    (CH.add_node HashFunction.position 2 "C" s) "k" = Ok (Some "A") /\
  SH.get_node HashFunction.position
    (SH.add_node HashFunction.position 2 "C" s) "k" = Ok (Some "A") /\
  CH.get_node HashFunction.position s "k" = Ok (Some "A") /\
  SH.get_node HashFunction.position s "k" = Ok (Some "A").
Proof.
  intros s.
  assert (well_formed s) as Hwf by (by_evaluation).
  assert ("A" <> "C") as Hn by (by_evaluation).
  assert (CH.get_node HashFunction.position
            (CH.add_node HashFunction.position 2 "C" s) "k" = Ok (Some "A")) as Hch
    by (vm_compute; reflexivity).
  assert (SH.get_node HashFunction.position
            (SH.add_node HashFunction.position 2 "C" s) "k" = Ok (Some "A")) as Hsh
    by (vm_compute; reflexivity).
  split; [exact Hwf|]. split; [exact Hn|]. split; [exact Hch|]. split; [exact Hsh|].
  split.
  - exact (proj1 (add_node_moves_to_new_node HashFunction.position 2 "C" s "k" "A"
                    Hwf Hn) Hch).
  - exact (proj2 (add_node_moves_to_new_node HashFunction.position 2 "C" s "k" "A"
                    Hwf Hn) Hsh).
Defined.

Lemma state_eq (s1 s2 : Ring.state) :
  Ring.ring s1 = Ring.ring s2 -> Ring.sorted_keys s1 = Ring.sorted_keys s2 ->
  Ring.nodes s1 = Ring.nodes s2 -> s1 = s2.
Proof. destruct s1, s2; simpl; by intros -> -> ->. Qed.

Lemma sorted_same_count (l1 l2 : list Z) :
  Sorted Z.le l1 -> Sorted Z.le l2 ->
  (forall q, count_occ Z.eq_dec l1 q = count_occ Z.eq_dec l2 q) -> l1 = l2.
Proof.
  intros H1 H2 Hc. apply (Sorted_unique Z.le); [done|done|].
  by apply (Permutation_count_occ Z.eq_dec).
Qed.

(** X3: [add_node] then [remove_node] is a round trip.  For a node that
    is not active and whose positions are not keys of the mapping, on a
    ring whose sequence is sorted, removing the node just added gives
    back the state before, in both files. *)
Theorem add_then_remove_restores (hash : string -> Z) (R : nat) (X : string)
    (s : Ring.state)
    (Hsorted : Sorted Z.le (Ring.sorted_keys s))
    (HX : X ∉ Ring.nodes s)
    (Hfree : Forall (fun p => Ring.ring s !! p = None) (positions hash R X)) :
  CH.remove_node hash R X (CH.add_node hash R X s) = s /\
  SH.remove_node hash R X (SH.add_node hash R X s) = s.
Proof.
  assert (CH.remove_node hash R X (CH.add_node hash R X s) = s) as Hch.
  { assert (X ∈ Ring.nodes (CH.add_node hash R X s)) as Hin.
    { rewrite add_node_nodes. set_solver. }
    apply state_eq.
    - apply map_eq. intros p. rewrite remove_node_ring by done.
      rewrite add_node_ring. case_decide as Hp; [|done].
      rewrite Forall_forall in Hfree. symmetry. by apply Hfree.
    - rewrite remove_node_sorted_keys by done.
      apply sorted_same_count; [|done|].
      + apply discard_all_sorted. by apply add_node_sorted.
      + intros q. rewrite count_occ_discard_all by (by apply add_node_sorted).
        pose proof (add_node_sorted_keys hash R X s) as Hperm.
        rewrite (Permutation_count_occ Z.eq_dec) in Hperm. rewrite (Hperm q).
        rewrite count_occ_app. lia.
    - rewrite remove_node_nodes, add_node_nodes. set_solver. }
  split; [done|]. rewrite sh_add_node. rewrite decide_False by done.
  exact Hch.
Qed.

Lemma add_then_remove_restores_witness :
  let s := SH.add_node SimpleHash.position 2 "A" Ring.empty in
  Sorted Z.le (Ring.sorted_keys s) /\ ("B" ∉ Ring.nodes s) /\
  Forall (fun p => Ring.ring s !! p = None) (positions SimpleHash.position 2 "B") /\
  CH.remove_node SimpleHash.position 2 "B" (CH.add_node SimpleHash.position 2 "B" s) = s /\
  SH.remove_node SimpleHash.position 2 "B" (SH.add_node SimpleHash.position 2 "B" s) = s.
Proof.
  intros s.
  assert (Sorted Z.le (Ring.sorted_keys s)) as Hsorted by (by_evaluation).
  assert ("B" ∉ Ring.nodes s) as HX by (by_evaluation).
  assert (Forall (fun p => Ring.ring s !! p = None)
            (positions SimpleHash.position 2 "B")) as Hfree by (by_evaluation).
  split; [exact Hsorted|]. split; [exact HX|]. split; [exact Hfree|].
  exact (add_then_remove_restores SimpleHash.position 2 "B" s Hsorted HX Hfree).
Defined.

(** X4: the ring depends on the active set only.  When no two
    virtual-node keys of the nodes that may be added hash to the same
    position, two states that simple_hashing reaches (or
    consistent_hashing, without calling [add_node] for an active node)
    with the same active nodes are the same state, whatever the order
    of the calls. *)
Theorem reachable_state_determined (hash : string -> Z) (R : nat)
    (names : list string) (s1 s2 : Ring.state)
    (Hcf : collision_free hash R names)
    (H1 : SH.reachable hash R (.∈ names) s1 \/ CH.reachable_fresh hash R (.∈ names) s1)
    (H2 : SH.reachable hash R (.∈ names) s2 \/ CH.reachable_fresh hash R (.∈ names) s2)
    (Hnodes : Ring.nodes s1 = Ring.nodes s2) :
  s1 = s2.
Proof.
  assert (forall s, SH.reachable hash R (.∈ names) s \/
                    CH.reachable_fresh hash R (.∈ names) s ->
            exact s /\ owned hash R s /\ placed hash R s) as Hinv.
  { intros s Hs. assert (SH.reachable hash R (.∈ names) s) as Hs'.
    { destruct Hs as [?|?]; [done|by apply ch_fresh_sh]. }
    split; [by apply (sh_reachable_exact hash R names)|].
    pose proof (sh_reachable_ch _ _ _ _ Hs') as Hc.
    split; [apply (ch_reachable_inv _ _ _ _ Hc)|].
    by apply (ch_reachable_placed hash R names). }
  destruct (Hinv s1 H1) as ([Hwf1 Hnd1] & Ho1 & Hp1).
  destruct (Hinv s2 H2) as ([Hwf2 Hnd2] & Ho2 & Hp2).
  assert (Ring.ring s1 = Ring.ring s2) as Hring.
  { apply map_eq. intros p.
    destruct (Ring.ring s1 !! p) as [n|] eqn:E1.
    - apply (map_Forall_lookup_1 _ _ _ _ Ho1) in E1 as [Hn Hpos].
      symmetry. apply Hp2; [by rewrite <- Hnodes|done].
    - destruct (Ring.ring s2 !! p) as [n|] eqn:E2; [|done].
      apply (map_Forall_lookup_1 _ _ _ _ Ho2) in E2 as [Hn Hpos].
      rewrite <- E1. apply Hp1; [by rewrite Hnodes|done]. }
  apply state_eq; [done| |done].
  apply well_formed_alt in Hwf1 as [Hs1 Hc1].
  apply well_formed_alt in Hwf2 as [Hs2 Hc2].
  apply (Sorted_unique Z.le); [done|done|].
  apply NoDup_Permutation; [done|done|].
  intros q. by rewrite Hc1, Hc2, Hring.
Qed.

Lemma reachable_state_determined_witness :
  let s1 := SH.add_node SimpleHash.position 2 "B"
              (SH.add_node SimpleHash.position 2 "A" Ring.empty) in
  let s2 := SH.remove_node SimpleHash.position 2 "C"
              (SH.add_node SimpleHash.position 2 "A"
                 (SH.add_node SimpleHash.position 2 "C"
                    (SH.add_node SimpleHash.position 2 "B" Ring.empty))) in
  collision_free SimpleHash.position 2 ["A"; "B"; "C"] /\
  SH.reachable SimpleHash.position 2 (.∈ ["A"; "B"; "C"]) s1 /\
  SH.reachable SimpleHash.position 2 (.∈ ["A"; "B"; "C"]) s2 /\
  Ring.nodes s1 = Ring.nodes s2 /\
  s1 = s2.
Proof.
  intros s1 s2.
  assert (collision_free SimpleHash.position 2 ["A"; "B"; "C"]) as Hcf
    by (by_evaluation).
  assert (SH.reachable SimpleHash.position 2 (.∈ ["A"; "B"; "C"]) s1) as H1.
  { apply SH.reachable_add; [by_evaluation|].
    apply SH.reachable_add; [by_evaluation|constructor]. }
  assert (SH.reachable SimpleHash.position 2 (.∈ ["A"; "B"; "C"]) s2) as H2.
  { apply SH.reachable_remove.
    apply SH.reachable_add; [by_evaluation|].
    apply SH.reachable_add; [by_evaluation|].
    apply SH.reachable_add; [by_evaluation|constructor]. }
  assert (Ring.nodes s1 = Ring.nodes s2) as Hnodes by (by_evaluation).
  split; [exact Hcf|]. split; [exact H1|]. split; [exact H2|]. split; [exact Hnodes|].
  exact (reachable_state_determined SimpleHash.position 2 ["A"; "B"; "C"] s1 s2
           Hcf (or_introl H1) (or_introl H2) Hnodes).
Defined.

Lemma owner_at_covered (s : Ring.state) (idx : nat) :
  (idx < length (Ring.sorted_keys s))%nat ->
  Ring.owner_at s idx = Raise KeyError \/
  exists p n, Ring.sorted_keys s !! idx = Some p /\ Ring.ring s !! p = Some n /\
              Ring.owner_at s idx = Ok (Some n).
Proof.
  intros Hidx. unfold Ring.owner_at.
  destruct (lookup_lt_is_Some_2 _ _ Hidx) as [p Hp]. rewrite Hp.
  destruct (Ring.ring s !! p) as [n|] eqn:Hn; [right; eauto|by left].
Qed.

Lemma covered_keys_nonempty (s : Ring.state) :
  covered s -> Ring.ring s <> ∅ -> (0 < length (Ring.sorted_keys s))%nat.
Proof.
  intros [_ Hc]%covered_alt Hne. apply map_choose in Hne as (p & n & Hp).
  assert (p ∈ Ring.sorted_keys s) as Hin by (apply Hc; eauto).
  destruct (Ring.sorted_keys s); [by apply elem_of_nil in Hin|simpl; lia].
Qed.

(** X5: what [get_node] can do on a reachable state, whatever the hasher
    and whatever the calls.  It returns [None], or raises [KeyError], or
    returns a node that is active; it does not raise [IndexError] and
    does not return a node that was removed or never added. *)
Theorem reachable_get_node_outcome (hash : string -> Z) (R : nat)
    (P : string -> Prop) (s : Ring.state) (key : string) :
  (CH.reachable hash R P s ->
     CH.get_node hash s key = Ok None \/
     CH.get_node hash s key = Raise KeyError \/
     exists n, CH.get_node hash s key = Ok (Some n) /\ n ∈ Ring.nodes s) /\
  (SH.reachable hash R P s ->
     SH.get_node hash s key = Ok None \/
     SH.get_node hash s key = Raise KeyError \/
     exists n, SH.get_node hash s key = Ok (Some n) /\ n ∈ Ring.nodes s).
Proof.
  assert (forall idx, CH.reachable hash R P s -> Ring.ring s <> ∅ ->
            (idx <= length (Ring.sorted_keys s))%nat ->
            let idx' := if decide (idx = length (Ring.sorted_keys s)) then 0%nat else idx in
            Ring.owner_at s idx' = Raise KeyError \/
            exists n, Ring.owner_at s idx' = Ok (Some n) /\ n ∈ Ring.nodes s) as Hown.
  { intros idx Hs Hne Hidx idx'.
    destruct (ch_reachable_inv _ _ _ _ Hs) as (Hc & Ho & _).
    pose proof (covered_keys_nonempty s Hc Hne) as Hlen.
    destruct (owner_at_covered s idx') as [?|(p & n & _ & Hn & Hget)].
    - unfold idx'. case_decide; lia.
    - by left.
    - right. exists n. split; [done|].
      by apply (map_Forall_lookup_1 _ _ _ _ Ho) in Hn as [? _]. }
  split.
  - intros Hs. unfold CH.get_node. case_decide as Hne; [by left|]. right.
    apply Hown; [done|done|].
    apply bisect_left_spec, (ch_reachable_inv _ _ _ _ Hs).
  - intros Hs. unfold SH.get_node. case_decide as Hne; [by left|]. right.
    apply sh_reachable_ch in Hs. apply Hown; [done|done|].
    apply bisect_right_spec, (ch_reachable_inv _ _ _ _ Hs).
Qed.

Lemma reachable_get_node_outcome_witness :
  let s := CH.remove_node colliding_hash 2 "A"
             (CH.add_node colliding_hash 2 "B"
                (CH.add_node colliding_hash 2 "A" Ring.empty)) in
  CH.reachable colliding_hash 2 (fun _ => True) s /\
  (CH.get_node colliding_hash s "A#1" = Ok None \/
   CH.get_node colliding_hash s "A#1" = Raise KeyError \/
   exists n, CH.get_node colliding_hash s "A#1" = Ok (Some n) /\ n ∈ Ring.nodes s).
Proof.
  intros s.
  assert (CH.reachable colliding_hash 2 (fun _ => True) s) as Hs
    by (repeat constructor).
  split; [exact Hs|].
  exact (proj1 (reachable_get_node_outcome colliding_hash 2 (fun _ => True) s "A#1") Hs).
Defined.

Lemma discard_all_Permutation (ks ps : list Z) :
  Sorted Z.le ks -> NoDup ps -> (forall p, p ∈ ps -> p ∈ ks) ->
  ks ≡ₚ ps ++ foldl Ring.discard ks ps.
Proof.
  revert ks. induction ps as [|x ps IH]; intros ks Hks Hnd Hin; [done|].
  apply NoDup_cons in Hnd as [Hx Hnd]. cbn [foldl]. simpl.
  rewrite (discard_elem ks x Hks) at 1 by (apply Hin; left).
  f_equiv. apply IH; [by apply discard_sorted|done|].
  intros p Hp. apply elem_of_discard_ne; [done|by intros ->|].
  apply Hin. by right.
Qed.

Lemma sh_reachable_length (hash : string -> Z) (R : nat) (names : list string)
    (s : Ring.state) :
  collision_free hash R names -> SH.reachable hash R (.∈ names) s ->
  length (Ring.sorted_keys s) = (R * size (Ring.nodes s))%nat.
Proof.
  intros Hcf Hreach. induction Hreach as [|X s HX Hs IH|X s Hs IH].
  - change (0 = R * size (∅ : gset string))%nat. rewrite size_empty. lia.
  - rewrite sh_add_node. case_decide as Hin; [done|].
    rewrite ch_add_node_length, add_node_nodes, IH.
    rewrite size_union by set_solver. rewrite size_singleton. lia.
  - rewrite sh_remove_node.
    destruct (decide (X ∈ Ring.nodes s)) as [Hin|Hin];
      [|by rewrite remove_node_absent].
    destruct (sh_reachable_exact hash R names s Hcf Hs) as [Hwf Hnd].
    apply well_formed_alt in Hwf as [Hsorted Hc].
    pose proof (sh_reachable_ch _ _ _ _ Hs) as Hch.
    pose proof (ch_reachable_placed hash R names s Hcf Hch) as Hpl.
    assert (X ∈ names) as HXn by (by apply (ch_reachable_inv _ _ _ _ Hch)).
    pose proof (discard_all_Permutation (Ring.sorted_keys s) (positions hash R X)
                  Hsorted (collision_free_NoDup hash R names X Hcf HXn)) as Hperm.
    rewrite remove_node_sorted_keys, remove_node_nodes by done.
    assert (length (Ring.sorted_keys s)
            = (R + length (foldl Ring.discard (Ring.sorted_keys s)
                             (positions hash R X)))%nat) as Hl.
    { rewrite Hperm at 1.
      - rewrite length_app. unfold positions. by rewrite length_fmap, length_seq.
      - intros p Hp. apply Hc. rewrite (Hpl X p Hin Hp). by eexists. }
    assert (size (Ring.nodes s) = S (size (Ring.nodes s ∖ {[X]}))) as Hsz.
    { rewrite (union_difference_L {[X]} (Ring.nodes s)) at 1 by set_solver.
      rewrite size_union by set_solver. by rewrite size_singleton. }
    rewrite IH, Hsz in Hl. lia.
Qed.

(** The entries of the mapping under one node, counted in the mapping
    and in the sequence. *)
Lemma node_entries_size (s : Ring.state) (n : string) :
  NoDup (Ring.sorted_keys s) ->
  list_to_set (Ring.sorted_keys s) =@{gset Z} dom (Ring.ring s) ->
  size (filter (fun pm : Z * string => pm.2 = n) (Ring.ring s))
  = length (filter (fun p => Ring.ring s !! p = Some n) (Ring.sorted_keys s)).
Proof.
  intros Hnd Hset. rewrite <- size_dom.
  rewrite <- (size_list_to_set (C := gset Z)) by (by apply NoDup_filter).
  f_equal. apply set_eq. intros p.
  rewrite elem_of_dom, elem_of_list_to_set, list_elem_of_filter. split.
  - intros [m Hm]. apply map_lookup_filter_Some in Hm as [Hm Hn].
    simpl in Hn. subst m. split; [done|].
    apply (elem_of_list_to_set (C := gset Z)). rewrite Hset. by apply elem_of_dom_2 in Hm.
  - intros [Hp _]. exists n. by apply map_lookup_filter_Some.
Qed.

Lemma node_entries (hash : string -> Z) (R : nat) (names : list string)
    (s : Ring.state) (n : string) :
  collision_free hash R names -> SH.reachable hash R (.∈ names) s ->
  (n ∈ Ring.nodes s ->
     forall p, Ring.ring s !! p = Some n <-> p ∈ positions hash R n) /\
  (n ∉ Ring.nodes s -> forall p, Ring.ring s !! p <> Some n) /\
  length (filter (fun p => Ring.ring s !! p = Some n) (Ring.sorted_keys s))
  = (if decide (n ∈ Ring.nodes s) then R else 0%nat).
Proof.
  intros Hcf Hreach.
  destruct (sh_reachable_exact hash R names s Hcf Hreach) as [[_ Hset] Hnd].
  pose proof (sh_reachable_ch _ _ _ _ Hreach) as Hch.
  destruct (ch_reachable_inv _ _ _ _ Hch) as (_ & Ho & Hnames).
  pose proof (ch_reachable_placed hash R names s Hcf Hch) as Hpl.
  assert (n ∈ Ring.nodes s ->
          forall p, Ring.ring s !! p = Some n <-> p ∈ positions hash R n) as Hiff.
  { intros Hn p. split.
    - intros Hp. by apply (map_Forall_lookup_1 _ _ _ _ Ho) in Hp as [_ ?].
    - by apply Hpl. }
  assert (n ∉ Ring.nodes s -> forall p, Ring.ring s !! p <> Some n) as Hnone.
  { intros Hn p Hp. by apply (map_Forall_lookup_1 _ _ _ _ Ho) in Hp as [? _]. }
  split; [done|]. split; [done|]. case_decide as Hn.
  - assert (filter (fun p => Ring.ring s !! p = Some n) (Ring.sorted_keys s)
            ≡ₚ positions hash R n) as Hperm.
    { apply NoDup_Permutation.
      - by apply NoDup_filter.
      - apply (collision_free_NoDup hash R names); [done|by apply Hnames].
      - intros p. rewrite list_elem_of_filter, (Hiff Hn p). split; [by intros [? _]|].
        intros Hp. split; [done|].
        apply (elem_of_list_to_set (C := gset Z)). rewrite Hset.
        apply elem_of_dom. exists n. by apply Hiff. }
    rewrite Hperm. unfold positions. by rewrite length_fmap, length_seq.
  - destruct (filter (fun p => Ring.ring s !! p = Some n) (Ring.sorted_keys s))
      as [|p l] eqn:Hf; [done|].
    assert (p ∈ filter (fun p => Ring.ring s !! p = Some n) (Ring.sorted_keys s)) as Hin
      by (rewrite Hf; left).
    apply list_elem_of_filter in Hin as [Hp _]. by destruct (Hnone Hn p).
Qed.

(** X6: R entries per active node.  When no two virtual-node keys of the
    nodes that may be added hash to the same position, then in every
    state simple_hashing reaches the entries under an active node are
    exactly the positions of its R virtual nodes, so that every active
    node has exactly R entries in the sequence and R in the mapping, a
    node that is not active has none, and the sequence and the mapping
    have R entries per active node in all. *)
Theorem entries_per_node (hash : string -> Z) (R : nat) (names : list string)
    (s : Ring.state)
    (Hcf : collision_free hash R names)
    (Hreach : SH.reachable hash R (.∈ names) s) :
  (forall n,
     (n ∈ Ring.nodes s ->
        forall p, Ring.ring s !! p = Some n <-> p ∈ positions hash R n) /\
     (n ∉ Ring.nodes s -> forall p, Ring.ring s !! p <> Some n) /\
     length (filter (fun p => Ring.ring s !! p = Some n) (Ring.sorted_keys s))
     = (if decide (n ∈ Ring.nodes s) then R else 0%nat) /\
     size (filter (fun pm : Z * string => pm.2 = n) (Ring.ring s))
     = (if decide (n ∈ Ring.nodes s) then R else 0%nat)) /\
  length (Ring.sorted_keys s) = (R * size (Ring.nodes s))%nat /\
  size (Ring.ring s) = (R * size (Ring.nodes s))%nat.
Proof.
  destruct (sh_reachable_exact hash R names s Hcf Hreach) as [[_ Hset] Hnd].
  split; [|split].
  - intros n. destruct (node_entries hash R names s n Hcf Hreach) as (Hiff & Hnone & Hlen).
    split; [done|]. split; [done|]. split; [done|].
    by rewrite node_entries_size.
  - by apply (sh_reachable_length hash R names).
  - rewrite <- (sh_reachable_length hash R names s Hcf Hreach).
    rewrite <- size_dom, <- Hset. by apply size_list_to_set.
Qed.

Lemma entries_per_node_witness :
  let s := SH.remove_node SimpleHash.position 2 "C"
             (SH.add_node SimpleHash.position 2 "B"
                (SH.add_node SimpleHash.position 2 "C"
                   (SH.add_node SimpleHash.position 2 "A" Ring.empty))) in
  collision_free SimpleHash.position 2 ["A"; "B"; "C"] /\
  SH.reachable SimpleHash.position 2 (.∈ ["A"; "B"; "C"]) s /\
  (forall n,
     (n ∈ Ring.nodes s ->
        forall p, Ring.ring s !! p = Some n <-> p ∈ positions SimpleHash.position 2 n) /\
     (n ∉ Ring.nodes s -> forall p, Ring.ring s !! p <> Some n) /\
     length (filter (fun p => Ring.ring s !! p = Some n) (Ring.sorted_keys s))
     = (if decide (n ∈ Ring.nodes s) then 2 else 0)%nat /\
     size (filter (fun pm : Z * string => pm.2 = n) (Ring.ring s))
     = (if decide (n ∈ Ring.nodes s) then 2 else 0)%nat) /\
  length (Ring.sorted_keys s) = (2 * size (Ring.nodes s))%nat /\
  size (Ring.ring s) = (2 * size (Ring.nodes s))%nat.
Proof.
  intros s.
  assert (collision_free SimpleHash.position 2 ["A"; "B"; "C"]) as Hcf
    by (by_evaluation).
  assert (SH.reachable SimpleHash.position 2 (.∈ ["A"; "B"; "C"]) s) as Hs.
  { apply SH.reachable_remove.
    apply SH.reachable_add; [by_evaluation|].
    apply SH.reachable_add; [by_evaluation|].
    apply SH.reachable_add; [by_evaluation|constructor]. }
  split; [exact Hcf|]. split; [exact Hs|].
  exact (entries_per_node SimpleHash.position 2 ["A"; "B"; "C"] s Hcf Hs).
Defined.

(** * Virtual-node keys *)

Section VnodeKeyFacts.
Lemma pretty_N_char_no_hash x : pretty_N_char x <> "#"%char.
Proof. unfold pretty_N_char. by repeat case_match. Qed.

Lemma pretty_N_go_no_hash x s : no_hash s -> no_hash (pretty_N_go x s).
Proof.
  revert s. induction (N.lt_wf_0 x) as [x _ IH]; intros s Hs.
  assert (x = 0 \/ 0 < x)%N as [->|Hx] by lia.
  - by rewrite pretty_N_go_0.
  - rewrite pretty_N_go_step by done. apply IH.
    + by apply N.div_lt.
    + split; [apply pretty_N_char_no_hash|done].
Qed.

Lemma pretty_nat_no_hash (i : nat) : no_hash (pretty i).
Proof.
  unfold pretty, pretty_nat, pretty, pretty_N. case_decide.
  - simpl. split; [done|done].
  - by apply pretty_N_go_no_hash.
Qed.

Lemma append_nil_l (s : string) : "" +:+ s = s.
Proof. reflexivity. Qed.

Lemma append_cons (c : ascii) (s t : string) : String c s +:+ t = String c (s +:+ t).
Proof. reflexivity. Qed.

Lemma no_hash_append s d : ~ no_hash (s +:+ "#" +:+ d).
Proof.
  induction s as [|c s IH].
  - rewrite append_nil_l, append_cons. by intros [? _].
  - rewrite append_cons. intros [_ ?]. by apply IH.
Qed.

Lemma append_hash_inj n1 n2 d1 d2 :
  no_hash d1 -> no_hash d2 ->
  n1 +:+ "#" +:+ d1 = n2 +:+ "#" +:+ d2 -> n1 = n2 /\ d1 = d2.
Proof.
  intros H1 H2. revert n2.
  induction n1 as [|c n1 IH]; intros [|c' n2] Heq;
    rewrite ?append_nil_l, ?append_cons, ?append_nil_l in Heq.
  - injection Heq as Heq. by split.
  - injection Heq as Hc Heq. subst d1. by destruct (no_hash_append n2 d2).
  - injection Heq as Hc Heq. subst d2. by destruct (no_hash_append n1 d1).
  - injection Heq as Hc Heq. subst c'. by destruct (IH n2 Heq) as [-> ->].
Qed.

End VnodeKeyFacts.

(** X7: the keys [f"{node}#{i}"] of two virtual nodes are the same
    string only for the same node and the same ordinal, also when a node
    name contains [#]. *)
Theorem vnode_key_inj (node1 node2 : string) (i j : nat) :
  Ring.vnode_key node1 i = Ring.vnode_key node2 j -> node1 = node2 /\ i = j.
Proof.
  unfold Ring.vnode_key. intros Heq.
  apply append_hash_inj in Heq as [-> Hij]; [|apply pretty_nat_no_hash..].
  split; [done|]. by apply (inj pretty).
Qed.

Lemma vnode_key_inj_witness :
  Ring.vnode_key "A#1" 0 = Ring.vnode_key "A#1" 0 /\ "A#1" = "A#1" /\ 0%nat = 0%nat.
Proof.
  assert (Ring.vnode_key "A#1" 0 = Ring.vnode_key "A#1" 0) as Heq by reflexivity.
  split; [exact Heq|].
  exact (vnode_key_inj "A#1" "A#1" 0 0 Heq).
Defined.

(** * The two lookup policies and repeated removal *)

(** X8: the two files' lookups differ only on the positions of the ring.
    On a ring whose sequence is sorted and holds the keys of the mapping,
    for a key whose hash is not a position of the ring, [get_node] of
    consistent_hashing ([bisect_left]) and [get_node] of simple_hashing
    ([bisect_right]) give the same answer under the same hasher. *)
Theorem get_node_policies_agree (hash : string -> Z) (s : Ring.state) (key : string)
    (Hwf : well_formed s) (Hfree : Ring.ring s !! hash key = None) :
  CH.get_node hash s key = SH.get_node hash s key.
Proof.
  destruct (decide (Ring.ring s = ∅)) as [He|Hne].
  - by rewrite (ch_get_node_empty hash s key He), (sh_get_node_empty hash s key He).
  - destruct (ch_get_node_policy_A hash s key Hwf Hne) as (n & -> & Hn).
    symmetry. apply sh_successor_get_node; [done|].
    destruct Hn as [(p & Hp & Hle & Hmin)|[Hall (p & Hp & Hmin)]].
    + left. exists p. split; [done|].
      assert (p <> hash key) as Hneq by (intros ->; by rewrite Hfree in Hp).
      split; [lia|]. intros q Hq Hlt. apply Hmin; [done|lia].
    + right. split; [|by exists p].
      intros q Hq. specialize (Hall q Hq). lia.
Qed.

Lemma get_node_policies_agree_witness :
  let s := CH.add_node HashFunction.position 2 "B"
             (CH.add_node HashFunction.position 2 "A" Ring.empty) in
  well_formed s /\ Ring.ring s !! HashFunction.position "k" = None /\
  CH.get_node HashFunction.position s "k" = SH.get_node HashFunction.position s "k".
Proof.
  intros s.
  assert (well_formed s) as Hwf by (by_evaluation).
  assert (Ring.ring s !! HashFunction.position "k" = None) as Hfree
    by (vm_compute; reflexivity).
  split; [exact Hwf|]. split; [exact Hfree|].
  exact (get_node_policies_agree HashFunction.position s "k" Hwf Hfree).
Defined.

(** X9: [remove_node] twice is [remove_node] once.  In every state, sound
    or not, a second [remove_node] of the same node changes nothing, in
    both files. *)
Theorem remove_node_twice (hash : string -> Z) (R : nat) (X : string) (s : Ring.state) :
  CH.remove_node hash R X (CH.remove_node hash R X s) = CH.remove_node hash R X s /\
  SH.remove_node hash R X (SH.remove_node hash R X s) = SH.remove_node hash R X s.
Proof.
  assert (CH.remove_node hash R X (CH.remove_node hash R X s)
          = CH.remove_node hash R X s) as Heq.
  { apply remove_node_absent. rewrite remove_node_nodes. set_solver. }
  split; [exact Heq|exact Heq].
Qed.

(** * The storage service *)

Lemma routed_alt {V : Type} (hash : string -> Z) (st : StorageService.t V) :
  routed hash st <->
  forall m d k v,
    StorageService.storage st !! m = Some d -> d !! k = Some v ->
    SH.get_node hash (StorageService.ring st) k = Ok m.
Proof.
  unfold routed. split.
  - intros H m d k v Hm Hk.
    exact (map_Forall_lookup_1 _ _ _ _ (map_Forall_lookup_1 _ _ _ _ H Hm) Hk).
  - intros H. apply map_Forall_lookup_2. intros m d Hm.
    apply map_Forall_lookup_2. intros k v Hk. by apply (H m d k v).
Qed.

Section StorageFacts.
Import Ring.
Variable hash : string -> Z.
Variable R : nat.
Context {V : Type}.
Implicit Types stg : gmap (option string) (gmap string V).
Implicit Types data : gmap string V.

(** The redistribution loop, when [get_node] returns for every key. *)
Lemma loop_redistributes r storage0 data :
  (forall k, exists o, SH.get_node hash r k = Ok o) ->
  redistributed hash r storage0
    (map_fold (fun key value acc => stg ← acc; StorageService.move hash r key value stg)
       (Ok storage0) data)
    data.
Proof.
  intros Hret.
  apply (map_fold_weak_ind (redistributed hash r storage0)).
  - exists storage0. split; [done|]. split; [done|]. split; [eauto|]. eauto.
  - intros k0 v0 m res Hfresh (stg & -> & Hmoved & Hkept & Horigin).
    destruct (Hret k0) as [o0 Hget].
    simpl. rewrite (move_returns hash r k0 v0 stg o0 Hget).
    eexists. split; [done|]. split; [|split].
    + intros k v Hk. destruct (decide (k = k0)) as [->|Hne].
      * rewrite lookup_insert_eq in Hk. injection Hk as <-.
        exists o0. eexists. split; [done|].
        split; [apply lookup_insert_eq|apply lookup_insert_eq].
      * rewrite lookup_insert_ne in Hk by done.
        destruct (Hmoved k v Hk) as (o & d & Hgo & Ho & Hd).
        exists o. destruct (decide (o = o0)) as [->|Hoo].
        -- eexists. split; [done|]. split; [apply lookup_insert_eq|].
           rewrite Ho. simpl. by rewrite lookup_insert_ne.
        -- exists d. split; [done|]. split; [|done].
           by rewrite lookup_insert_ne.
    + intros m' d k Hm' Hk. destruct (Hkept m' d k Hm' Hk) as (d' & Hd' & Hk').
      destruct (decide (m' = o0)) as [->|Hmo].
      * eexists. split; [apply lookup_insert_eq|]. rewrite Hd'. simpl.
        destruct (decide (k = k0)) as [->|Hne].
        -- rewrite lookup_insert_eq. by eexists.
        -- by rewrite lookup_insert_ne.
      * exists d'. split; [by rewrite lookup_insert_ne|done].
    + intros m' d' k v Hm' Hv.
      destruct (decide (m' = o0)) as [->|Hmo].
      * rewrite lookup_insert_eq in Hm'. injection Hm' as <-.
        destruct (decide (k = k0)) as [->|Hne].
        -- rewrite lookup_insert_eq in Hv. injection Hv as <-.
           right. by rewrite lookup_insert_eq.
        -- rewrite lookup_insert_ne in Hv by done.
           destruct (stg !! o0) as [d0|] eqn:Hd0; simpl in Hv; [|done].
           destruct (Horigin o0 d0 k v Hd0 Hv) as [?|[Hk ?]]; [by left|].
           right. by rewrite lookup_insert_ne.
      * rewrite lookup_insert_ne in Hm' by done.
        destruct (Horigin m' d' k v Hm' Hv) as [?|[Hk ?]]; [by left|].
        right. split; [|done]. rewrite lookup_insert_ne; [done|].
        intros <-. by rewrite Hfresh in Hk.
Qed.

Lemma remove_node_safe_unfold (st : StorageService.t V) (n : string) data :
  well_formed (SH.remove_node hash R n (StorageService.ring st)) ->
  StorageService.storage st !! Some n = Some data ->
  exists stg,
    StorageService.remove_node_safe hash R n st
    = Ok {| StorageService.ring := SH.remove_node hash R n (StorageService.ring st);
            StorageService.storage := delete (Some n) stg |} /\
    redistributed hash (SH.remove_node hash R n (StorageService.ring st))
      (StorageService.storage st) (Ok stg) data.
Proof.
  intros Hwf Hdata. unfold StorageService.remove_node_safe. rewrite Hdata.
  destruct (loop_redistributes
              (SH.remove_node hash R n (StorageService.ring st))
              (StorageService.storage st) data) as (stg & Hloop & Hrest).
  { intros k. destruct (sh_get_node_returns hash _ k Hwf) as (o & Ho & _). eauto. }
  exists stg. rewrite Hloop. split; [done|]. exists stg. by split.
Qed.

End StorageFacts.

(** X10: [write] stores the pair under the node the ring names.  When
    [write] returns, the ring and the nodes of the storage are as before,
    the pair is stored under the node [get_node] gives for the key, and a
    storage in which every pair sat under the owner of its key is still
    such a storage. *)
Theorem write_routes {V : Type} (hash : string -> Z) (st st' : StorageService.t V)
    (key : string) (value : V)
    (Hwrite : StorageService.write hash key value st = Ok st') :
  StorageService.ring st' = StorageService.ring st /\
  dom (StorageService.storage st') = dom (StorageService.storage st) /\
  (exists o d, SH.get_node hash (StorageService.ring st) key = Ok o /\
               StorageService.storage st' !! o = Some d /\ d !! key = Some value) /\
  (routed hash st -> routed hash st').
Proof.
  unfold StorageService.write in Hwrite.
  destruct (SH.get_node hash (StorageService.ring st) key) as [o|e] eqn:Hget;
    simpl in Hwrite; [|done].
  destruct (StorageService.storage st !! o) as [d|] eqn:Hd; [|done].
  apply Ok_inj in Hwrite. subst st'. simpl.
  split; [done|]. split.
  { rewrite dom_insert_L. apply elem_of_dom_2 in Hd. set_solver. }
  split.
  { exists o. eexists. split; [done|]. split; apply lookup_insert_eq. }
  rewrite !routed_alt. intros Hrouted m d' k v Hm Hk. simpl in *.
  destruct (decide (m = o)) as [->|Hmo].
  - rewrite lookup_insert_eq in Hm. injection Hm as <-.
    destruct (decide (k = key)) as [->|Hne]; [done|].
    rewrite lookup_insert_ne in Hk by done. by apply (Hrouted o d k v).
  - rewrite lookup_insert_ne in Hm by done. by apply (Hrouted m d' k v).
Qed.

Lemma write_routes_witness :
  let r := SH.add_node SimpleHash.position 2 "Node_B"
             (SH.add_node SimpleHash.position 2 "Node_A" Ring.empty) in
  let st := {| StorageService.ring := r;
               StorageService.storage :=
                 {[ Some "Node_A" := ∅; Some "Node_B" := {[ "banana" := 2 ]} ]} |} in
  let st' := {| StorageService.ring := r;
                StorageService.storage :=
                  {[ Some "Node_A" := {[ "apple" := 1 ]};
                     Some "Node_B" := {[ "banana" := 2 ]} ]} |} in
  StorageService.write SimpleHash.position "apple" 1 st = Ok st' /\
  routed SimpleHash.position st /\
  StorageService.ring st' = StorageService.ring st /\
  dom (StorageService.storage st') = dom (StorageService.storage st) /\
  (exists o d, SH.get_node SimpleHash.position (StorageService.ring st) "apple" = Ok o /\
               StorageService.storage st' !! o = Some d /\ d !! "apple" = Some 1) /\
  routed SimpleHash.position st'.
Proof.
  intros r st st'.
  assert (StorageService.write SimpleHash.position "apple" 1 st = Ok st') as Hwrite
    by (vm_compute; reflexivity).
  assert (routed SimpleHash.position st) as Hrouted by (unfold routed; by_evaluation).
  destruct (write_routes SimpleHash.position st st' "apple" 1 Hwrite)
    as (Hring & Hdom & Hput & Hkeep).
  split; [exact Hwrite|]. split; [exact Hrouted|]. split; [exact Hring|].
  split; [exact Hdom|]. split; [exact Hput|]. exact (Hkeep Hrouted).
Defined.

(** X11: nothing can be written while the ring has no node.  On a
    service whose ring was reached by [add_node] and [remove_node] calls
    and has no active node, and whose storage has no entry under [None]
    (as after [__init__]), [write] raises [KeyError] for every key. *)
Theorem write_without_nodes {V : Type} (hash : string -> Z) (R : nat)
    (P : string -> Prop) (st : StorageService.t V) (key : string) (value : V)
    (Hreach : SH.reachable hash R P (StorageService.ring st))
    (Hnodes : Ring.nodes (StorageService.ring st) = ∅)
    (Hnone : StorageService.storage st !! None = None) :
  StorageService.write hash key value st = Raise KeyError.
Proof.
  unfold StorageService.write.
  rewrite (sh_get_node_empty hash _ key).
  - simpl. by rewrite Hnone.
  - apply (owned_no_nodes hash R); [|done].
    apply sh_reachable_ch in Hreach. apply (ch_reachable_inv _ _ _ _ Hreach).
Qed.

Lemma write_without_nodes_witness :
  SH.reachable SimpleHash.position 100 (fun _ => True)
    (StorageService.ring (StorageService.init (V := Z))) /\
  Ring.nodes (StorageService.ring (StorageService.init (V := Z))) = ∅ /\
  StorageService.storage (StorageService.init (V := Z)) !! None = None /\
  StorageService.write SimpleHash.position "apple" 1 StorageService.init
  = Raise KeyError.
Proof.
  assert (SH.reachable SimpleHash.position 100 (fun _ => True)
            (StorageService.ring (StorageService.init (V := Z)))) as Hreach
    by constructor.
  assert (Ring.nodes (StorageService.ring (StorageService.init (V := Z))) = ∅)
    as Hnodes by reflexivity.
  assert (StorageService.storage (StorageService.init (V := Z)) !! None = None)
    as Hnone by (vm_compute; reflexivity).
  split; [exact Hreach|]. split; [exact Hnodes|]. split; [exact Hnone|].
  exact (write_without_nodes SimpleHash.position 100 (fun _ => True)
           StorageService.init "apple" 1 Hreach Hnodes Hnone).
Defined.

(** X12: [remove_node_safe] loses no key and invents no pair.  On a ring
    that satisfies I2 and on which every mapped position is a virtual
    node of an active node, for a node that has a store, the call
    returns; a key is stored afterwards exactly when it was stored
    before, and every pair stored afterwards was a pair stored before. *)
Theorem remove_node_safe_keeps_keys {V : Type} (hash : string -> Z) (R : nat)
    (st : StorageService.t V) (n : string) (data : gmap string V)
    (Hexact : exact (StorageService.ring st))
    (Howned : owned hash R (StorageService.ring st))
    (Hdata : StorageService.storage st !! Some n = Some data) :
  exists st',
    StorageService.remove_node_safe hash R n st = Ok st' /\
    (forall k, stored (StorageService.storage st') k <->
               stored (StorageService.storage st) k) /\
    (forall m d' k v,
       StorageService.storage st' !! m = Some d' -> d' !! k = Some v ->
       exists m0 d, StorageService.storage st !! m0 = Some d /\ d !! k = Some v).
Proof.
  assert (well_formed (SH.remove_node hash R n (StorageService.ring st))) as Hwf.
  { change (SH.remove_node hash R n (StorageService.ring st))
      with (CH.remove_node hash R n (StorageService.ring st)).
    by apply remove_node_exact. }
  destruct (remove_node_safe_unfold hash R st n data Hwf Hdata)
    as (stg & -> & (stg' & Heq & Hmoved & Hkept & Horigin)).
  apply Ok_inj in Heq. subst stg'.
  eexists. split; [done|]. simpl. split.
  - intros k. split.
    + intros (m & d' & Hm & [v Hv]).
      destruct (decide (m = Some n)) as [->|Hmn];
        [by rewrite lookup_delete_eq in Hm|].
      rewrite lookup_delete_ne in Hm by done.
      destruct (Horigin m d' k v Hm Hv) as [(d & Hd & Hk)|[Hk _]].
      * exists m, d. split; [done|by eexists].
      * exists (Some n), data. split; [done|by eexists].
    + intros (m & d & Hm & [v Hv]).
      destruct (decide (m = Some n)) as [->|Hmn].
      * rewrite Hdata in Hm. injection Hm as <-.
        destruct (Hmoved k v Hv) as (o & d' & Hget & Ho & Hd').
        exists o, d'. split; [|by eexists].
        rewrite lookup_delete_ne; [done|]. intros <-.
        by apply (removed_not_owner hash R _ n k Howned).
      * destruct (Hkept m d k Hm (ltac:(by eexists))) as (d' & Hd' & Hk').
        exists m, d'. split; [|done]. by rewrite lookup_delete_ne.
  - intros m d' k v Hm Hv.
    destruct (decide (m = Some n)) as [->|Hmn];
      [by rewrite lookup_delete_eq in Hm|].
    rewrite lookup_delete_ne in Hm by done.
    destruct (Horigin m d' k v Hm Hv) as [(d & Hd & Hk)|[Hk _]]; eauto.
Qed.

Lemma remove_node_safe_keeps_keys_witness :
  let r := SH.add_node SimpleHash.position 2 "Node_B"
             (SH.add_node SimpleHash.position 2 "Node_A" Ring.empty) in
  let data : gmap string Z := {[ "banana" := 2; "cherry" := 3 ]} in
  let st := {| StorageService.ring := r;
               StorageService.storage :=
                 {[ Some "Node_A" := {[ "apple" := 1 ]}; Some "Node_B" := data ]} |} in
  exact r /\ owned SimpleHash.position 2 r /\
  StorageService.storage st !! Some "Node_B" = Some data /\
  exists st',
    StorageService.remove_node_safe SimpleHash.position 2 "Node_B" st = Ok st' /\
    (forall k, stored (StorageService.storage st') k <->
               stored (StorageService.storage st) k) /\
    (forall m d' k v,
       StorageService.storage st' !! m = Some d' -> d' !! k = Some v ->
       exists m0 d, StorageService.storage st !! m0 = Some d /\ d !! k = Some v).
Proof.
  intros r data st.
  assert (exact (StorageService.ring st)) as Hexact by (by_evaluation).
  assert (owned SimpleHash.position 2 (StorageService.ring st)) as Howned
    by (by_evaluation).
  assert (StorageService.storage st !! Some "Node_B" = Some data) as Hdata
    by (vm_compute; reflexivity).
  split; [exact Hexact|]. split; [exact Howned|]. split; [exact Hdata|].
  exact (remove_node_safe_keeps_keys SimpleHash.position 2 st "Node_B" data
           Hexact Howned Hdata).
Defined.

(** X13: [remove_node_safe] keeps the pairs with the owners of their
    keys.  On a ring that satisfies I2, on which every mapped position is
    a virtual node of an active node and the positions of the node
    removed are mapped to no other node, a storage in which every pair
    sits under the node [get_node] gives for its key is such a storage
    again after the call, on the ring after the removal. *)
Theorem remove_node_safe_keeps_routed {V : Type} (hash : string -> Z) (R : nat)
    (st : StorageService.t V) (n : string) (data : gmap string V)
    (Hexact : exact (StorageService.ring st))
    (Howned : owned hash R (StorageService.ring st))
    (Hmine : map_Forall (fun p m => p ∈ positions hash R n -> m = n)
               (Ring.ring (StorageService.ring st)))
    (Hdata : StorageService.storage st !! Some n = Some data)
    (Hrouted : routed hash st) :
  exists st', StorageService.remove_node_safe hash R n st = Ok st' /\ routed hash st'.
Proof.
  assert (well_formed (SH.remove_node hash R n (StorageService.ring st))) as Hwf.
  { change (SH.remove_node hash R n (StorageService.ring st))
      with (CH.remove_node hash R n (StorageService.ring st)).
    by apply remove_node_exact. }
  destruct (remove_node_safe_unfold hash R st n data Hwf Hdata)
    as (stg & -> & (stg' & Heq & Hmoved & Hkept & Horigin)).
  apply Ok_inj in Heq. subst stg'.
  eexists. split; [done|]. rewrite routed_alt in Hrouted. apply routed_alt.
  intros m d' k v Hm Hv. simpl in *.
  destruct (decide (m = Some n)) as [->|Hmn];
    [by rewrite lookup_delete_eq in Hm|].
  rewrite lookup_delete_ne in Hm by done.
  destruct (Horigin m d' k v Hm Hv) as [(d & Hd & Hk)|[_ Hget]]; [|done].
  apply (sh_remove_node_get_node_other hash R); [done|done|done|].
  by apply (Hrouted m d k v).
Qed.

Lemma remove_node_safe_keeps_routed_witness :
  let r := SH.add_node SimpleHash.position 2 "Node_B"
             (SH.add_node SimpleHash.position 2 "Node_A" Ring.empty) in
  let data : gmap string Z := {[ "banana" := 2; "cherry" := 3 ]} in
  let st := {| StorageService.ring := r;
               StorageService.storage :=
                 {[ Some "Node_A" := {[ "apple" := 1 ]}; Some "Node_B" := data ]} |} in
  exact r /\ owned SimpleHash.position 2 r /\
  map_Forall (fun p m => p ∈ positions SimpleHash.position 2 "Node_B" -> m = "Node_B")
    (Ring.ring r) /\
  StorageService.storage st !! Some "Node_B" = Some data /\
  routed SimpleHash.position st /\
  exists st',
    StorageService.remove_node_safe SimpleHash.position 2 "Node_B" st = Ok st' /\
    routed SimpleHash.position st'.
Proof.
  intros r data st.
  assert (exact (StorageService.ring st)) as Hexact by (by_evaluation).
  assert (owned SimpleHash.position 2 (StorageService.ring st)) as Howned
    by (by_evaluation).
  assert (map_Forall
            (fun p m => p ∈ positions SimpleHash.position 2 "Node_B" -> m = "Node_B")
            (Ring.ring (StorageService.ring st))) as Hmine by (by_evaluation).
  assert (StorageService.storage st !! Some "Node_B" = Some data) as Hdata
    by (vm_compute; reflexivity).
  assert (routed SimpleHash.position st) as Hrouted by (unfold routed; by_evaluation).
  split; [exact Hexact|]. split; [exact Howned|]. split; [exact Hmine|].
  split; [exact Hdata|]. split; [exact Hrouted|].
  exact (remove_node_safe_keeps_routed SimpleHash.position 2 st "Node_B" data
           Hexact Howned Hmine Hdata Hrouted).
Defined.

(** X14: removing the only node leaves its pairs under the key [None].
    On a ring on which every mapped position is a virtual node of an
    active node and that has no active node but [n], [remove_node_safe(n)]
    returns, the ring is left empty, the store of [n] is deleted, and
    every pair of that store is now in a store under the key [None], which
    is no node. *)
Theorem remove_last_node_safe {V : Type} (hash : string -> Z) (R : nat)
    (st : StorageService.t V) (n : string) (data : gmap string V)
    (Howned : owned hash R (StorageService.ring st))
    (Honly : Ring.nodes (StorageService.ring st) ⊆ {[n]})
    (Hdata : StorageService.storage st !! Some n = Some data) :
  exists st',
    StorageService.remove_node_safe hash R n st = Ok st' /\
    Ring.ring (StorageService.ring st') = ∅ /\
    StorageService.storage st' !! Some n = None /\
    forall k v, data !! k = Some v ->
      exists d, StorageService.storage st' !! None = Some d /\ d !! k = Some v.
Proof.
  assert (Ring.ring (SH.remove_node hash R n (StorageService.ring st)) = ∅) as Hempty.
  { change (SH.remove_node hash R n (StorageService.ring st))
      with (CH.remove_node hash R n (StorageService.ring st)).
    apply (owned_no_nodes hash R); [by apply remove_node_owned|].
    rewrite remove_node_nodes. set_solver. }
  unfold StorageService.remove_node_safe. rewrite Hdata.
  destruct (loop_redistributes hash
              (SH.remove_node hash R n (StorageService.ring st))
              (StorageService.storage st) data) as (stg & Hloop & Hmoved & _).
  { intros k. exists None. by apply sh_get_node_empty. }
  rewrite Hloop. simpl. eexists. split; [done|]. simpl.
  split; [done|]. split; [apply lookup_delete_eq|].
  intros k v Hk. destruct (Hmoved k v Hk) as (o & d & Hget & Ho & Hd).
  rewrite (sh_get_node_empty hash _ k Hempty) in Hget.
  apply Ok_inj in Hget. subst o. exists d. split; [|done].
  by rewrite lookup_delete_ne.
Qed.

Lemma remove_last_node_safe_witness :
  let r := SH.add_node SimpleHash.position 2 "Node_A" Ring.empty in
  let data : gmap string Z := {[ "apple" := 1 ]} in
  let st := {| StorageService.ring := r;
               StorageService.storage := {[ Some "Node_A" := data ]} |} in
  owned SimpleHash.position 2 r /\ Ring.nodes r ⊆ {[ "Node_A" ]} /\
  StorageService.storage st !! Some "Node_A" = Some data /\
  exists st',
    StorageService.remove_node_safe SimpleHash.position 2 "Node_A" st = Ok st' /\
    Ring.ring (StorageService.ring st') = ∅ /\
    StorageService.storage st' !! Some "Node_A" = None /\
    forall k v, data !! k = Some v ->
      exists d, StorageService.storage st' !! None = Some d /\ d !! k = Some v.
Proof.
  intros r data st.
  assert (owned SimpleHash.position 2 (StorageService.ring st)) as Howned
    by (by_evaluation).
  assert (Ring.nodes (StorageService.ring st) ⊆ {[ "Node_A" ]}) as Honly
    by (by_evaluation).
  assert (StorageService.storage st !! Some "Node_A" = Some data) as Hdata
    by (vm_compute; reflexivity).
  split; [exact Howned|]. split; [exact Honly|]. split; [exact Hdata|].
  exact (remove_last_node_safe SimpleHash.position 2 st "Node_A" data
           Howned Honly Hdata).
Defined.

(** * Distributions *)

Section TallyFacts.

Lemma total_insert_fresh (m : gmap (option string) Z) o c :
  m !! o = None -> total (<[o := c]> m) = c + total m.
Proof.
  intros Ho. unfold total. rewrite map_fold_insert_L; [done| |done].
  intros. lia.
Qed.

Lemma total_tally (m : gmap (option string) Z) o : total (tally m o) = total m + 1.
Proof.
  unfold tally. destruct (m !! o) as [c|] eqn:Ho; simpl.
  - rewrite <- insert_delete_eq.
    rewrite total_insert_fresh by apply lookup_delete_eq.
    unfold total at 2. rewrite (map_fold_delete_L _ _ o c m); [|intros; lia|done].
    fold (total (delete o m)). lia.
  - rewrite total_insert_fresh by done. lia.
Qed.

Lemma tally_lookup (m : gmap (option string) Z) o o' :
  default 0 (tally m o !! o') =
    default 0 (m !! o') + (if decide (o = o') then 1 else 0).
Proof.
  unfold tally. case_decide as Heq.
  - subst. by rewrite lookup_insert_eq.
  - rewrite lookup_insert_ne by done. lia.
Qed.

(** Counting the owners of a list of items, in the way of the two
    distribution functions. *)
Context {K : Type}.
Variable owner : K -> result (option string).

Lemma tally_loop (items : list K) :
  Forall (fun x => exists o, owner x = Ok o) items ->
  exists dist,
    foldl (fun acc x => d ← acc; o ← owner x; Ok (tally d o)) (Ok ∅) items = Ok dist /\
    tallied owner items dist.
Proof.
  induction items as [|x items IH] using rev_ind; intros Hret.
  - exists ∅. split; [done|]. split; [done|]. split; [done|].
    intros o c. by rewrite lookup_empty.
  - apply Forall_app in Hret as [Hitems Hx].
    apply Forall_singleton in Hx as [o Ho].
    destruct (IH Hitems) as (dist & Hfold & Htotal & Hcount & Hpos).
    exists (tally dist o). rewrite foldl_snoc, Hfold. simpl. rewrite Ho. simpl.
    split; [done|]. split; [|split].
    + rewrite total_tally, Htotal, length_app. simpl. lia.
    + intros o'. rewrite tally_lookup, Hcount, filter_app, length_app.
      rewrite filter_cons, filter_nil. rewrite Ho.
      destruct (decide (Ok o = Ok o')) as [Heq|Hne].
      * apply Ok_inj in Heq. subst. rewrite decide_True by done. simpl. lia.
      * rewrite decide_False by congruence. simpl. lia.
    + intros o' c. unfold tally. destruct (decide (o = o')) as [->|Hne].
      * rewrite lookup_insert_eq. intros [= <-].
        destruct (dist !! o') as [c0|] eqn:Hc0; simpl; [|lia].
        specialize (Hpos o' c0 Hc0). lia.
      * rewrite lookup_insert_ne by done. apply Hpos.
Qed.

Lemma tally_loop_raises (items : list K) e :
  forall acc,
  acc = Raise e ->
  foldl (fun acc x => d ← acc; o ← owner x; Ok (tally d o)) acc items = Raise e.
Proof.
  induction items as [|x items IH]; intros acc ->; [done|]. simpl. by apply IH.
Qed.

Lemma tallied_counted items dist o c :
  tallied owner items dist -> dist !! o = Some c ->
  exists x, x ∈ items /\ owner x = Ok o.
Proof.
  intros (_ & Hcount & Hpos) Ho. specialize (Hcount o). specialize (Hpos o c Ho).
  rewrite Ho in Hcount. simpl in Hcount.
  destruct (filter (fun x => owner x = Ok o) items) as [|x l] eqn:Hf;
    [simpl in Hcount; lia|].
  assert (x ∈ filter (fun x => owner x = Ok o) items) as Hin by (rewrite Hf; left).
  apply list_elem_of_filter in Hin as [? ?]. eauto.
Qed.

(** The loop stops at the first item whose owner is not returned. *)
Lemma tally_loop_stops (pre post : list K) x e :
  Forall (fun x => exists o, owner x = Ok o) pre ->
  owner x = Raise e ->
  foldl (fun acc x => d ← acc; o ← owner x; Ok (tally d o)) (Ok ∅) (pre ++ x :: post)
  = Raise e.
Proof.
  intros Hpre Hx. destruct (tally_loop pre Hpre) as (dist & Hfold & _).
  rewrite foldl_app, Hfold. simpl. rewrite Hx. simpl.
  by apply tally_loop_raises.
Qed.

End TallyFacts.

(** X15: [get_distribution] counts every key once.  On a ring whose
    sequence is sorted and holds the keys of the mapping it returns; the
    counts add up to the number of keys, the count of a node is the
    number of keys [get_node] gives to it, no count is zero, and a node
    counted is a node of the mapping ([None] is counted only on an empty
    ring). *)
Theorem get_distribution_counts (hash : string -> Z) (keys : list string)
    (ring : Ring.state) (Hwf : well_formed ring) :
  exists distribution,
    LoadBalancerSimulator.get_distribution hash keys ring = Ok distribution /\
    total distribution = Z.of_nat (length keys) /\
    (forall node,
       default 0 (distribution !! node)
       = Z.of_nat (length (filter (fun key => CH.get_node hash ring key = Ok node) keys))) /\
    (forall node count, distribution !! node = Some count ->
       0 < count /\
       match node with
       | Some n => exists p, Ring.ring ring !! p = Some n
       | None => Ring.ring ring = ∅
       end).
Proof.
  destruct (tally_loop (CH.get_node hash ring) keys) as (dist & Hfold & Ht).
  { apply Forall_forall. intros key _. by apply ch_get_node_returns. }
  exists dist. split; [exact Hfold|]. split; [apply Ht|]. split; [apply Ht|].
  intros node count Hnode. split; [by apply Ht in Hnode|].
  destruct (tallied_counted _ _ _ _ _ Ht Hnode) as (key & _ & Hget).
  destruct node as [n|].
  - by apply ch_get_node_mapped in Hget.
  - by apply ch_get_node_None in Hget.
Qed.

Lemma get_distribution_counts_witness :
  let ring := CH.add_node HashFunction.position 1 "B"
                (CH.add_node HashFunction.position 1 "A" Ring.empty) in
  let keys := LoadBalancerSimulator.keys 3 in
  well_formed ring /\
  exists distribution,
    LoadBalancerSimulator.get_distribution HashFunction.position keys ring
    = Ok distribution /\
    total distribution = Z.of_nat (length keys) /\
    (forall node,
       default 0 (distribution !! node)
       = Z.of_nat (length (filter (fun key => CH.get_node HashFunction.position ring key
                                               = Ok node) keys))) /\
    (forall node count, distribution !! node = Some count ->
       0 < count /\
       match node with
       | Some n => exists p, Ring.ring ring !! p = Some n
       | None => Ring.ring ring = ∅
       end).
Proof.
  intros ring keys.
  assert (well_formed ring) as Hwf by (by_evaluation).
  split; [exact Hwf|].
  exact (get_distribution_counts HashFunction.position keys ring Hwf).
Defined.

(** X16: [get_distribution] stops at the first key [get_node] fails on.
    When [get_node] returns for the keys before [key] and raises for
    [key], [get_distribution] raises that exception, whatever keys
    follow: no partial distribution is returned. *)
Theorem get_distribution_raises (hash : string -> Z) (ring : Ring.state)
    (pre post : list string) (key : string) (e : exn)
    (Hpre : Forall (fun k => exists o, CH.get_node hash ring k = Ok o) pre)
    (Hkey : CH.get_node hash ring key = Raise e) :
  LoadBalancerSimulator.get_distribution hash (pre ++ key :: post) ring = Raise e.
Proof.
  by apply (tally_loop_stops (CH.get_node hash ring)).
Qed.

Lemma get_distribution_raises_witness :
  let ring := CH.remove_node HashFunction.position 1 "A"
                (CH.add_node HashFunction.position 1 "B"
                   (CH.add_node HashFunction.position 1 "A"
                      (CH.add_node HashFunction.position 1 "A" Ring.empty))) in
  Forall (fun k => exists o, CH.get_node HashFunction.position ring k = Ok o)
    ["banana"] /\
  CH.get_node HashFunction.position ring "Key0" = Raise KeyError /\
  LoadBalancerSimulator.get_distribution HashFunction.position
    (["banana"] ++ "Key0" :: ["Key1"]) ring = Raise KeyError.
Proof.
  intros ring.
  assert (Forall (fun k => exists o, CH.get_node HashFunction.position ring k = Ok o)
            ["banana"]) as Hpre.
  { constructor; [|constructor]. exists (Some "B"). vm_compute. reflexivity. }
  assert (CH.get_node HashFunction.position ring "Key0" = Raise KeyError) as Hkey
    by (vm_compute; reflexivity).
  split; [exact Hpre|]. split; [exact Hkey|].
  exact (get_distribution_raises HashFunction.position ring ["banana"] ["Key1"]
           "Key0" KeyError Hpre Hkey).
Defined.

(** X17: [measure_distribution] counts every draw once.  On a ring whose
    sequence is sorted and holds the keys of the mapping it returns,
    whatever numbers [random.randint] gives; the counts add up to
    [num_keys], no count is zero, and a node counted is a node of the
    mapping ([None] is counted only on an empty ring). *)
Theorem measure_distribution_counts (hash : string -> Z) (randint : nat -> Z)
    (ring : Ring.state) (num_keys : nat) (Hwf : well_formed ring) :
  exists node_counts,
    simulation.measure_distribution hash randint ring num_keys = Ok node_counts /\
    total node_counts = Z.of_nat num_keys /\
    (forall node count, node_counts !! node = Some count ->
       0 < count /\
       match node with
       | Some n => exists p, Ring.ring ring !! p = Some n
       | None => Ring.ring ring = ∅
       end).
Proof.
  destruct (tally_loop
              (fun i => SH.get_node hash ring ("user_" +:+ pretty (randint i)))
              (seq 0 num_keys)) as (dist & Hfold & Ht).
  { apply Forall_forall. intros i _.
    destruct (sh_get_node_returns hash ring ("user_" +:+ pretty (randint i)) Hwf)
      as (o & Ho & _). eauto. }
  exists dist. split; [exact Hfold|]. split.
  { destruct Ht as [Htotal _]. by rewrite length_seq in Htotal. }
  intros node count Hnode. split; [by apply Ht in Hnode|].
  destruct (tallied_counted _ _ _ _ _ Ht Hnode) as (i & _ & Hget).
  destruct node as [n|].
  - by apply sh_get_node_mapped in Hget.
  - by apply sh_get_node_None in Hget.
Qed.

Lemma measure_distribution_counts_witness :
  let ring := SH.add_node SimpleHash.position 2 "Node_B"
                (SH.add_node SimpleHash.position 2 "Node_A" Ring.empty) in
  let randint := fun i : nat => 5 + 2 * Z.of_nat i in
  well_formed ring /\
  exists node_counts,
    simulation.measure_distribution SimpleHash.position randint ring 2 = Ok node_counts /\
    total node_counts = Z.of_nat 2 /\
    (forall node count, node_counts !! node = Some count ->
       0 < count /\
       match node with
       | Some n => exists p, Ring.ring ring !! p = Some n
       | None => Ring.ring ring = ∅
       end).
Proof.
  intros ring randint.
  assert (well_formed ring) as Hwf by (by_evaluation).
  split; [exact Hwf|].
  exact (measure_distribution_counts SimpleHash.position randint ring 2 Hwf).
Defined.

(** X18: the keys of the simulator.  [LoadBalancerSimulator(num_keys)]
    holds [num_keys] keys and no key twice, so that a distribution over
    them counts [num_keys] different keys. *)
Theorem simulator_keys_distinct (num_keys : nat) :
  length (LoadBalancerSimulator.keys num_keys) = num_keys /\
  NoDup (LoadBalancerSimulator.keys num_keys).
Proof.
  unfold LoadBalancerSimulator.keys. split.
  - by rewrite length_fmap, length_seq.
  - apply NoDup_fmap_2; [|apply NoDup_seq].
    intros i j Heq. simpl in Heq. injection Heq as Heq. by apply (inj pretty).
Qed.
